(** * tracegen: synthetic block-trace generation

    A shallow embedding of the trace generators of the repository
    (tracegen.cc, 2d-tracegen.cc, kd-tracegen.cc) and of the sampler
    builders of tracegen-utils.h / utils.h, with the properties of the
    scheduling heap, the interval tables and the assertion behaviour.

    Conventions.
    - [i64] values are [Z].  Signed overflow of an [i64] addition is
      undefined in C++ and lies outside the model; the narrowing
      conversions to [int] that the source performs are written out
      ([to_int]).
    - A finite [double] is a rational, so [f64] values are [Q]: comparisons
      of doubles are the exact comparisons of [Q], and [llround] is the
      exact round-half-away-from-zero; [llround_i64] is [std::llround] with
      its [i64] result, whose value is the implementation's when the
      rounded value does not fit.  The rounding arithmetic of doubles
      (division, multiplication, [pow], the accumulation in
      [normalise_vec]) and the number parsers are parameters ([FloatOps]).
    - The standard random distributions are parameters constrained by the
      ranges the C++ standard gives them ([StdRandom]); the state that is
      threaded through every draw is the [mt19937_64] engine together with
      the internal state of the distribution objects captured by the
      sampler closures.
    - [std::make_heap], [std::pop_heap] and [std::push_heap] are parameters
      constrained by their contract ([StdHeap]).
    - [assert] is modelled as compiled in (no NDEBUG): a failed assertion
      aborts the run.
    - tracegen.cc carries its own copies of the sampler builders; they
      agree with those of tracegen-utils.h, which are the ones embedded
      here.  [parse_irm] is the version of tracegen-utils.h, with the
      colon-free specs and the popularity mode. *)

From Stdlib Require Import ZArith List Lia Permutation String Ascii Bool.
From Stdlib Require Import QArith Qround Qabs Lqa Sorted.
Import ListNotations.

Local Open Scope Z_scope.

(** ** Machine integers *)

Definition INT_MIN : Z := - 2 ^ 31.
Definition INT_MAX : Z := 2 ^ 31 - 1.

(** Conversion of an [i64] (or [size_t]) value to [int]: reduction modulo
    2^32 into the signed range. *)
Definition to_int (z : Z) : Z := (z + 2 ^ 31) mod 2 ^ 32 - 2 ^ 31.

Definition fits_int (z : Z) : Prop := INT_MIN <= z <= INT_MAX.

(** The range of [long long], which is [i64]. *)
Definition LLONG_MIN : Z := - 2 ^ 63.
Definition LLONG_MAX : Z := 2 ^ 63 - 1.

Definition fits_i64 (z : Z) : Prop := LLONG_MIN <= z <= LLONG_MAX.

(** ** Outcomes of a run *)

Inductive failure : Type :=
| AssertionFailed   (* assert(...) does not hold: std::abort *)
| FatalError        (* ensure_fatal, log_fatal, exit(1) *)
| Exception         (* an uncaught C++ exception (stod, stoi, reserve) *)
| Undefined.        (* undefined behaviour: division by zero, index out of
                       range, pop of an empty heap *)

Inductive result (A : Type) : Type :=
| Ok (a : A)
| Err (f : failure).
Arguments Ok {A} a.
Arguments Err {A} f.

Definition bind {A B} (r : result A) (k : A -> result B) : result B :=
  match r with
  | Ok a => k a
  | Err f => Err f
  end.

Notation "x <- r ;; k" := (bind r (fun x => k))
  (at level 61, r at next level, right associativity).
Notation "' p <- r ;; k" := (bind r (fun p => k))
  (at level 61, p pattern, r at next level, right associativity).

Definition ensure (c : bool) (f : failure) : result unit :=
  if c then Ok tt else Err f.

Definition is_ok {A} (r : result A) : bool :=
  match r with Ok _ => true | Err _ => false end.

(** [v[i]] on a [std::vector]: out of range is undefined behaviour. *)
Definition vec_at {A} (v : list A) (i : Z) : result A :=
  if i <? 0 then Err Undefined
  else match nth_error v (Z.to_nat i) with
       | Some x => Ok x
       | None => Err Undefined
       end.

(** ** Doubles *)

Definition f64 : Type := Q.

Definition f64_ltb (x y : f64) : bool := negb (Qle_bool y x).
Definition f64_eqb (x y : f64) : bool := Qeq_bool x y.

(** [std::llround]: nearest integer, halfway cases away from zero. *)
Definition llround (x : f64) : Z :=
  if Qle_bool 0%Q x then Qfloor (x + (1 # 2))%Q
  else Qceiling (x - (1 # 2))%Q.

(** [std::floor] followed by the cast to [i64]. *)
Definition f64_floor (x : f64) : Z := Qfloor x.

Class FloatOps : Type := {
  f64_add : f64 -> f64 -> f64;
  f64_sub : f64 -> f64 -> f64;
  f64_mul : f64 -> f64 -> f64;
  f64_div : f64 -> f64 -> f64;
  f64_pow : f64 -> f64 -> f64;
  (* std::stod and std::stoi; [None] when they throw.  [stoi] returns an
     [int] and throws [std::out_of_range] beyond it. *)
  stod : string -> option f64;
  stoi : string -> option Z;
  stoi_fits : forall s z, stoi s = Some z -> fits_int z;
  (* what std::llround returns when the rounded value is outside [i64]:
     the standard leaves the value unspecified, it is some [i64] *)
  llround_overflow : f64 -> Z;
  llround_overflow_fits : forall x, fits_i64 (llround_overflow x)
}.

(** [std::llround] with its [i64] result: the nearest integer when that
    fits [i64], the implementation's value otherwise. *)
Definition llround_i64 {FO : FloatOps} (x : f64) : Z :=
  let r := llround x in
  if (LLONG_MIN <=? r) && (r <=? LLONG_MAX) then r else llround_overflow x.

(** ** Random sources *)

Class StdRandom (rng : Type) : Type := {
  (* std::uniform_int_distribution<i64>(a, b) *)
  uniform_int_distribution : Z -> Z -> rng -> Z * rng;
  uniform_int_range : forall a b w, a <= b ->
    a <= fst (uniform_int_distribution a b w) <= b;
  (* std::discrete_distribution over a weight vector *)
  discrete_distribution : list f64 -> rng -> Z * rng;
  discrete_range : forall ws w,
    0 <= fst (discrete_distribution ws w) < Z.max 1 (Z.of_nat (List.length ws));
  (* std::uniform_real_distribution<>(0, 1) *)
  uniform_real_distribution : rng -> f64 * rng;
  uniform_real_range : forall w,
    (0 <= fst (uniform_real_distribution w))%Q /\
    (fst (uniform_real_distribution w) < 1)%Q;
  (* std::normal_distribution<f64>(mean, stddev) *)
  normal_distribution : f64 -> f64 -> rng -> f64 * rng
}.

(** ** utils.h *)

Section Utils.
Context {FO : FloatOps}.

(** [normalise_vec]: divide every weight by the accumulated sum. *)
Definition normalise_vec (weights : list f64) : list f64 :=
  let sum := fold_left f64_add weights (0%Q : f64) in
  map (fun w => f64_div w sum) weights.

(** [split(s, delimiter)]: the scan of the source; [fuel] bounds the
    number of iterations of the while loop. *)
Fixpoint split_loop (fuel : nat) (s delimiter : string) (pos_start : nat)
         (res : list string) : list string :=
  match fuel with
  | O => res
  | S fuel' =>
    match index pos_start delimiter s with
    | Some pos_end =>
      let token := substring pos_start (pos_end - pos_start)%nat s in
      split_loop fuel' s delimiter (pos_end + String.length delimiter)%nat
                 (res ++ [token])
    | None =>
      res ++ [substring pos_start (String.length s - pos_start)%nat s]
    end
  end.

Definition split (s delimiter : string) : list string :=
  split_loop (S (String.length s)) s delimiter 0%nat [].

End Utils.

(** ** tracegen-utils.h: the sampler builders *)

Section Samplers.
Context {FO : FloatOps} {rng : Type} {SR : StdRandom rng}.

(** [using dist = std::function<i64(std::mt19937_64 &)>] *)
Definition dist : Type := rng -> Z * rng.

Fixpoint mapM {A B} (f : A -> result B) (l : list A) : result (list B) :=
  match l with
  | [] => Ok []
  | x :: l' => y <- f x ;; ys <- mapM f l' ;; Ok (y :: ys)
  end.

Definition of_option {A} (o : option A) (f : failure) : result A :=
  match o with Some a => Ok a | None => Err f end.

(** The loop of [get_intervals]: [n] iterations remain, [i] is the loop
    counter, each interval is the pair (lower, upper) of its
    [uniform_int_distribution]. *)
Fixpoint get_intervals_loop (n : nat) (i width max : Z)
         (intervals : list (Z * Z)) : list (Z * Z) :=
  match n with
  | O => intervals
  | S n' =>
    let lower := (i - 1) * width in
    let upper := i * width - 1 in
    let upper := Z.min upper (max - 1) in
    get_intervals_loop n' (i + 1) width max (intervals ++ [(lower, upper)])
  end.

Definition get_intervals (classes max : Z) : result (list (Z * Z)) :=
  _ <- ensure ((0 <? classes) && (0 <? max) && (classes <=? max))
              AssertionFailed ;;
  let width := Z.quot max classes in
  Ok (get_intervals_loop (Z.to_nat classes) 1 width max []).

Definition normal_dist (mean stddev : f64) (max : Z) : dist :=
  fun w =>
    let (sample, w1) := normal_distribution mean stddev w in
    if f64_ltb sample 0%Q then (0, w1)
    else if f64_ltb (inject_Z max) sample then (max, w1)
    else (llround sample, w1).

(** The closure shared by [zipf_dist] and [pareto_dist]:
    [idx = dis(rng); return ivs[idx](rng)]. *)
Definition two_stage (weights : list f64) (ivs : list (Z * Z)) : dist :=
  fun w =>
    let (idx, w1) := discrete_distribution weights w in
    let iv := nth (Z.to_nat idx) ivs (0, 0) in
    uniform_int_distribution (fst iv) (snd iv) w1.

(** The values 1, 2, ..., n of the loop counter, as doubles. *)
Definition class_indices (classes : Z) : list f64 :=
  map (fun i => inject_Z (Z.of_nat i)) (seq 1 (Z.to_nat classes)).

Definition zipf_weights (alpha : f64) (classes : Z) : list f64 :=
  normalise_vec (map (fun i => f64_div 1%Q (f64_pow i alpha))
                     (class_indices classes)).

Definition zipf_dist (alpha : f64) (classes max : Z) : result dist :=
  _ <- ensure (f64_ltb 0%Q alpha && (0 <? classes)) AssertionFailed ;;
  intervals <- get_intervals classes max ;;
  let weights := zipf_weights alpha classes in
  _ <- ensure (Nat.eqb (List.length weights) (List.length intervals))
              AssertionFailed ;;
  Ok (two_stage weights intervals).

Definition uniform_dist (max : Z) : dist :=
  uniform_int_distribution 0 (max - 1).

Definition pareto_weights (xm alpha : f64) (classes : Z) : list f64 :=
  normalise_vec (map (fun i => f64_pow (f64_div xm i) alpha)
                     (class_indices classes)).

Definition pareto_dist (xm alpha : f64) (classes max : Z) : result dist :=
  _ <- ensure (f64_ltb 0%Q xm && f64_ltb 0%Q alpha && (0 <? classes))
              AssertionFailed ;;
  intervals <- get_intervals classes max ;;
  let weights := pareto_weights xm alpha classes in
  _ <- ensure (Nat.eqb (List.length weights) (List.length intervals))
              AssertionFailed ;;
  Ok (two_stage weights intervals).

(** [weights[s] = x] on a vector. *)
Fixpoint vec_update {A} (v : list A) (i : nat) (x : A) : option (list A) :=
  match v, i with
  | [], _ => None
  | _ :: v', O => Some (x :: v')
  | y :: v', S i' => option_map (cons y) (vec_update v' i' x)
  end.

Definition vec_set {A} (v : list A) (i : Z) (x : A) : result (list A) :=
  if i <? 0 then Err Undefined
  else of_option (vec_update v (Z.to_nat i) x) Undefined.

Fixpoint set_spikes (weights : list f64) (spikes : list Z) (x : f64)
  : result (list f64) :=
  match spikes with
  | [] => Ok weights
  | s :: spikes' => ws <- vec_set weights s x ;; set_spikes ws spikes' x
  end.

Definition irdgen (k : Z) (epsilon : f64) (spikes : list Z) : result dist :=
  let weights := repeat epsilon (Z.to_nat k) in
  weights <- set_spikes weights spikes (f64_sub 1%Q epsilon) ;;
  let weights := normalise_vec weights in
  Ok (discrete_distribution weights).

Definition parse_fgen (args : list string) : result dist :=
  a0 <- vec_at args 0 ;;
  _ <- ensure (String.eqb a0 "fgen") AssertionFailed ;;
  _ <- ensure (Nat.eqb (List.length args) 4) FatalError ;;
  a1 <- vec_at args 1 ;;
  a2 <- vec_at args 2 ;;
  a3 <- vec_at args 3 ;;
  k <- of_option (stoi a1) Exception ;;
  epsilon <- of_option (stod a2) Exception ;;
  let spikes := split a3 "," in
  spike_idxs <- mapM (fun s => of_option (stoi s) Exception) spikes ;;
  irdgen k epsilon spike_idxs.

(** Decimal literals stand for the double nearest to them. *)
Definition parse_ird (s : string) : result dist :=
  if String.eqb s "b" then irdgen 20 (5 # 1000)%Q [0; 3]
  else if String.eqb s "c" then irdgen 20 (5 # 1000)%Q [2; 9]
  else if String.eqb s "d" then irdgen 5 (1 # 100)%Q [0; 4]
  else if String.eqb s "e" then irdgen 20 (5 # 1000)%Q [1]
  else if String.eqb s "f" then irdgen 20 (1 # 100)%Q [2]
  else
    let args := split s ":" in
    a0 <- vec_at args 0 ;;
    if String.eqb a0 "fgen" then parse_fgen args
    else Err FatalError.

(** The fixed-point scale of popularity mode. *)
Definition scale : f64 := (10000 # 1)%Q.

(** The boundary loop of address mode: [sum += vals[i]; push
    floor(sum * max)]. *)
Fixpoint boundaries_loop (vals : list f64) (sum : f64) (max : Z)
         (boundaries : list Z) : list Z :=
  match vals with
  | [] => boundaries
  | v :: vals' =>
    let sum := f64_add sum v in
    boundaries_loop vals' sum max
      (boundaries ++ [f64_floor (f64_mul sum (inject_Z max))])
  end.

Definition address_sampler (vals : list f64) (boundaries : list Z) : dist :=
  fun w =>
    let (bin, w1) := discrete_distribution vals w in
    let start := nth (Z.to_nat bin) boundaries 0 in
    let end_ := nth (Z.to_nat (bin + 1)) boundaries 0 - 1 in
    uniform_int_distribution start end_ w1.

Definition popularity_sampler (vals : list f64) : dist :=
  fun w =>
    let (idx, w1) := discrete_distribution vals w in
    let v := nth (Z.to_nat idx) vals 0%Q in
    (llround (f64_mul v scale), w1).

Definition parse_irm (dist_str : string) (max : Z) (pop_mode : bool)
  : result dist :=
  match index 0 ":" dist_str with
  | None =>
    (* Non-canonical specification: no colon. *)
    let tokens := split dist_str "," in
    vals <- mapM (fun t => of_option (stod t) Exception) tokens ;;
    let vals := normalise_vec vals in
    if negb pop_mode then
      let boundaries := boundaries_loop vals 0%Q max [0] in
      Ok (address_sampler vals boundaries)
    else
      Ok (popularity_sampler vals)
  | Some _ =>
    (* Canonical specification. *)
    let args := split dist_str ":" in
    _ <- ensure (Nat.eqb (List.length args) 2) FatalError ;;
    dist_type <- vec_at args 0 ;;
    a1 <- vec_at args 1 ;;
    let dist_args := split a1 "," in
    if String.eqb dist_type "pareto" then
      _ <- ensure (Nat.eqb (List.length dist_args) 3) FatalError ;;
      s0 <- vec_at dist_args 0 ;;
      s1 <- vec_at dist_args 1 ;;
      s2 <- vec_at dist_args 2 ;;
      xm <- of_option (stod s0) Exception ;;
      alpha <- of_option (stod s1) Exception ;;
      n <- of_option (stoi s2) Exception ;;
      pareto_dist xm alpha n max
    else if String.eqb dist_type "zipf" then
      _ <- ensure (Nat.eqb (List.length dist_args) 2) FatalError ;;
      s0 <- vec_at dist_args 0 ;;
      s1 <- vec_at dist_args 1 ;;
      alpha <- of_option (stod s0) Exception ;;
      n <- of_option (stoi s1) Exception ;;
      zipf_dist alpha n max
    else if String.eqb dist_type "uniform" then
      Ok (uniform_dist max)
    else if String.eqb dist_type "normal" then
      _ <- ensure (Nat.eqb (List.length dist_args) 2) FatalError ;;
      s0 <- vec_at dist_args 0 ;;
      s1 <- vec_at dist_args 1 ;;
      mu <- of_option (stod s0) Exception ;;
      sigma <- of_option (stod s1) Exception ;;
      Ok (normal_dist mu sigma max)
    else Err FatalError
  end.

(** An address is covered by an interval table when some interval of the
    table contains it. *)
Definition covered (ivs : list (Z * Z)) (a : Z) : Prop :=
  exists iv, In iv ivs /\ fst iv <= a <= snd iv.

(** A sampler [d] is a two-stage draw over [classes] intervals of width
    [width]: the class index comes from the discrete distribution over
    [weights], the value from the uniform distribution on that class's
    interval. *)
Definition two_stage_draw (weights : list f64) (classes width max : Z)
           (d : dist) : Prop :=
  forall w,
    let idx := fst (discrete_distribution weights w) in
    let w1 := snd (discrete_distribution weights w) in
    0 <= idx < classes /\
    d w = uniform_int_distribution (idx * width) ((idx + 1) * width - 1) w1 /\
    idx * width <= fst (d w) <= (idx + 1) * width - 1 /\
    0 <= fst (d w) < max.

(** A sampler that ignores the random state. *)
Definition const_dist (x : Z) : dist := fun w => (x, w).

End Samplers.

(** ** The heap algorithms of <algorithm> *)

(** [std::is_heap] for the comparator [cmp]: no element compares below its
    parent.  With [cmp a b = a.ird > b.ird] the front of a heap carries a
    least [ird]. *)
Definition is_heap {A} (cmp : A -> A -> bool) (v : list A) : Prop :=
  forall i p c, (0 < i)%nat ->
    nth_error v ((i - 1) / 2)%nat = Some p ->
    nth_error v i = Some c ->
    cmp p c = false.

(** The contract of [std::make_heap], [std::pop_heap] and [std::push_heap]
    on the whole vector: each permutes its range; [pop_heap] moves the front
    of a heap to the back and leaves a heap before it; [push_heap] extends a
    heap by the last element.  The order among entries of equal key is left
    open, as in the standard. *)
Class StdHeap (A : Type) (cmp : A -> A -> bool) : Type := {
  make_heap : list A -> list A;
  pop_heap : list A -> list A;
  push_heap : list A -> list A;
  make_heap_perm : forall v, Permutation v (make_heap v);
  make_heap_is_heap : forall v, is_heap cmp (make_heap v);
  pop_heap_spec : forall x v, is_heap cmp (x :: v) ->
    exists v', pop_heap (x :: v) = v' ++ [x] /\
               Permutation v v' /\ is_heap cmp v';
  push_heap_perm : forall v x, is_heap cmp v ->
    Permutation (v ++ [x]) (push_heap (v ++ [x]));
  push_heap_is_heap : forall v x, is_heap cmp v ->
    is_heap cmp (push_heap (v ++ [x]))
}.

(** [heap.back()] together with [heap.pop_back()]. *)
Definition pop_back {A} (v : list A) : option (list A * A) :=
  match rev v with
  | [] => None
  | x :: r => Some (rev r, x)
  end.

(** [heappop]: [pop_heap], then take the back.  On an empty vector the
    source has undefined behaviour. *)
Definition heappop {A cmp} {H : StdHeap A cmp} (heap : list A)
  : result (A * list A) :=
  match heap with
  | [] => Err Undefined
  | _ =>
    match pop_back (pop_heap heap) with
    | Some (heap', min) => Ok (min, heap')
    | None => Err Undefined
    end
  end.

(** [heappush]: [push_back], then [push_heap]. *)
Definition heappush_entry {A cmp} {H : StdHeap A cmp} (heap : list A) (e : A)
  : list A :=
  push_heap (heap ++ [e]).

(** ** tracegen.cc and 2d-tracegen.cc: the blended generator *)

Record tadr : Type := mk_tadr { ird : Z; addr : Z }.

Definition tadr_cmp (a b : tadr) : bool := ird a >? ird b.

(** The addresses [0, 1, ..., addrs - 1]. *)
Definition addresses (addrs : Z) : list Z :=
  map Z.of_nat (seq 0 (Z.to_nat addrs)).

Section Blended.
Context {rng : Type} {SR : StdRandom rng} {SH : StdHeap tadr tadr_cmp}.

Definition heappush (heap : list tadr) (ird addr : Z) : list tadr :=
  heappush_entry heap (mk_tadr ird addr).

(** State of the generation loop: the heap [irds], the trace so far and the
    random state. *)
Record gen_state : Type := mk_gen_state {
  g_irds : list tadr;
  g_trace : list Z;
  g_rng : rng
}.

(** [for (a = 0; a < addrs; a++) irds.push_back({d_ird(rng), a})], with
    [n] iterations remaining. *)
Fixpoint init_irds (n : nat) (a : Z) (d_ird : @dist rng)
         (irds : list tadr) (w : rng) : list tadr * rng :=
  match n with
  | O => (irds, w)
  | S n' =>
    let (x, w1) := d_ird w in
    init_irds n' (a + 1) d_ird (irds ++ [mk_tadr x a]) w1
  end.

Definition gen_setup (addrs : Z) (d_ird : @dist rng) (w : rng) : gen_state :=
  let (irds, w1) := init_irds (Z.to_nat addrs) 0 d_ird [] w in
  mk_gen_state (make_heap irds) [] w1.

(** One iteration of the loop of [gen_addresses]. *)
Definition gen_step (addrs : Z) (p_irm : f64) (d_ird d_irm : @dist rng)
           (st : gen_state) : result gen_state :=
  let (u, w1) := uniform_real_distribution (g_rng st) in
  let is_irm := f64_ltb u p_irm in
  if is_irm then
    let (a, w2) := d_irm w1 in
    _ <- ensure (a <? addrs) AssertionFailed ;;
    Ok (mk_gen_state (g_irds st) (g_trace st ++ [a]) w2)
  else
    let (ird_sample, w2) := d_ird w1 in
    _ <- ensure ((0 <=? ird_sample) && (ird_sample <? addrs))
                AssertionFailed ;;
    '(min_ird, irds) <- heappop (g_irds st) ;;
    Ok (mk_gen_state
          (heappush irds (ird min_ird + ird_sample) (addr min_ird))
          (g_trace st ++ [addr min_ird]) w2).

Fixpoint gen_loop (n : nat) (addrs : Z) (p_irm : f64)
         (d_ird d_irm : @dist rng) (st : gen_state) : result gen_state :=
  match n with
  | O => Ok st
  | S n' =>
    st' <- gen_step addrs p_irm d_ird d_irm st ;;
    gen_loop n' addrs p_irm d_ird d_irm st'
  end.

Definition gen_addresses (addrs length : Z) (p_irm : f64)
           (d_ird d_irm : @dist rng) (w : rng) : result (list Z * rng) :=
  st <- gen_loop (Z.to_nat length) addrs p_irm d_ird d_irm
                 (gen_setup addrs d_ird w) ;;
  Ok (g_trace st, g_rng st).

(** [td_gen] of 2d-tracegen.cc: the same loop, written with if/else. *)
Definition td_step (addrs : Z) (p_irm : f64) (d_ird d_irm : @dist rng)
           (st : gen_state) : result gen_state :=
  let (u, w1) := uniform_real_distribution (g_rng st) in
  if f64_ltb u p_irm then
    let (a, w2) := d_irm w1 in
    _ <- ensure (a <? addrs) AssertionFailed ;;
    Ok (mk_gen_state (g_irds st) (g_trace st ++ [a]) w2)
  else
    let (ird_sample, w2) := d_ird w1 in
    _ <- ensure ((0 <=? ird_sample) && (ird_sample <? addrs))
                AssertionFailed ;;
    '(min_ird, irds) <- heappop (g_irds st) ;;
    Ok (mk_gen_state
          (heappush irds (ird min_ird + ird_sample) (addr min_ird))
          (g_trace st ++ [addr min_ird]) w2).

Fixpoint td_loop (n : nat) (addrs : Z) (p_irm : f64)
         (d_ird d_irm : @dist rng) (st : gen_state) : result gen_state :=
  match n with
  | O => Ok st
  | S n' =>
    st' <- td_step addrs p_irm d_ird d_irm st ;;
    td_loop n' addrs p_irm d_ird d_irm st'
  end.

Definition td_gen (addrs length : Z) (p_irm : f64)
           (d_ird d_irm : @dist rng) (w : rng) : result (list Z * rng) :=
  st <- td_loop (Z.to_nat length) addrs p_irm d_ird d_irm
                (gen_setup addrs d_ird w) ;;
  Ok (g_trace st, g_rng st).

(** The invariant of the scheduling heap: it is a heap and it holds one
    entry for each address of the footprint. *)
Definition irds_inv (addrs : Z) (irds : list tadr) : Prop :=
  is_heap tadr_cmp irds /\ Permutation (map addr irds) (addresses addrs).

(** The trace of a run that only ever takes the IRM branch: at each step
    one blend draw, then one draw of [d_irm]. *)
Fixpoint irm_draws (n : nat) (d_irm : @dist rng) (w : rng) : list Z * rng :=
  match n with
  | O => ([], w)
  | S n' =>
    let (u, w1) := uniform_real_distribution w in
    let (a, w2) := d_irm w1 in
    let (rest, w3) := irm_draws n' d_irm w2 in
    (a :: rest, w3)
  end.

End Blended.

(** ** kd-tracegen.cc: the grouped generator *)

(** [struct group_tadr { i64 ird; i64 addr; int group; }]; the fields carry
    a prefix because [ird] and [addr] name the fields of [tadr]. *)
Record group_tadr : Type := mk_group_tadr {
  gt_ird : Z;
  gt_addr : Z;
  gt_group : Z
}.

Definition group_tadr_cmp (a b : group_tadr) : bool := gt_ird a >? gt_ird b.

Section Grouped.
Context {FO : FloatOps} {rng : Type} {SR : StdRandom rng}.
Context {SH : StdHeap group_tadr group_tadr_cmp}.

Definition heappush_group (heap : list group_tadr) (ird addr : Z) (group : Z)
  : list group_tadr :=
  heappush_entry heap (mk_group_tadr ird addr group).

(** The scaling shared by setup and step:
    [scaled = pop == 0.0 ? raw : (double)raw / pop], [llround], clamp at 0. *)
Definition scaled_of (pop_g : f64) (raw_ird : Z) : f64 :=
  if f64_eqb pop_g 0%Q then inject_Z raw_ird
  else f64_div (inject_Z raw_ird) pop_g.

Definition clamped_ird (pop_g : f64) (raw_ird : Z) : Z :=
  let scaled := scaled_of pop_g raw_ird in
  let x := llround_i64 scaled in
  if x <? 0 then 0 else x.

(** [int group = a / group_size; if (group >= groups) group = groups - 1]. *)
Definition group_of (groups group_size a : Z) : result Z :=
  _ <- ensure (negb (group_size =? 0)) Undefined ;;
  let group := to_int (Z.quot a group_size) in
  Ok (if group >=? groups then groups - 1 else group).

Record kd_state : Type := mk_kd_state {
  k_heap : list group_tadr;
  k_trace : list Z;
  k_rng : rng
}.

(** The setup loop of [kd_gen], with [n] iterations remaining. *)
Fixpoint kd_init (n : nat) (a groups group_size : Z)
         (irds : list (@dist rng)) (pop : list f64)
         (heap : list group_tadr) (w : rng)
  : result (list group_tadr * rng) :=
  match n with
  | O => Ok (heap, w)
  | S n' =>
    group <- group_of groups group_size a ;;
    d <- vec_at irds group ;;
    let (x, w1) := d w in
    let raw_ird := to_int x in
    pop_g <- vec_at pop group ;;
    let init_ird := clamped_ird pop_g raw_ird in
    kd_init n' (a + 1) groups group_size irds pop
            (heap ++ [mk_group_tadr init_ird a group]) w1
  end.

(** One iteration of the generation loop of [kd_gen]. *)
Definition kd_step (irds : list (@dist rng)) (pop : list f64)
           (st : kd_state) : result kd_state :=
  '(entry, heap) <- heappop (k_heap st) ;;
  d <- vec_at irds (gt_group entry) ;;
  let (x, w1) := d (k_rng st) in
  let raw_ird := to_int x in
  pop_g <- vec_at pop (gt_group entry) ;;
  let add_ird := clamped_ird pop_g raw_ird in
  Ok (mk_kd_state
        (heappush_group heap (gt_ird entry + add_ird) (gt_addr entry)
                        (gt_group entry))
        (k_trace st ++ [gt_addr entry]) w1).

Fixpoint kd_loop (n : nat) (irds : list (@dist rng)) (pop : list f64)
         (st : kd_state) : result kd_state :=
  match n with
  | O => Ok st
  | S n' => st' <- kd_step irds pop st ;; kd_loop n' irds pop st'
  end.

(** Setup of [kd_gen] up to [make_heap].  [addrs / groups] divides by zero
    when [irds] is empty; [reserve] of a negative count throws
    [std::length_error]. *)
Definition kd_setup (addrs : Z) (irds : list (@dist rng)) (pop : list f64)
           (w : rng) : result kd_state :=
  let groups := to_int (Z.of_nat (List.length irds)) in
  _ <- ensure (negb (groups =? 0)) Undefined ;;
  let group_size := Z.quot addrs groups in
  _ <- ensure (0 <=? addrs) Exception ;;
  '(heap, w1) <- kd_init (Z.to_nat addrs) 0 groups group_size irds pop [] w ;;
  Ok (mk_kd_state (make_heap heap) [] w1).

Definition kd_gen (addrs length : Z) (irds : list (@dist rng))
           (pop : list f64) (w : rng) : result (list Z * rng) :=
  st <- kd_setup addrs irds pop w ;;
  _ <- ensure (0 <=? length) Exception ;;
  st' <- kd_loop (Z.to_nat length) irds pop st ;;
  Ok (k_trace st', k_rng st').

(** The popularity vector built by [main] of kd-tracegen.cc:
    [pop.push_back((double)sample / 10000.0)] for each group. *)
Fixpoint draw_pop (n : nat) (irm_dist : @dist rng) (pop : list f64) (w : rng)
  : list f64 * rng :=
  match n with
  | O => (pop, w)
  | S n' =>
    let (sample, w1) := irm_dist w in
    draw_pop n' irm_dist (pop ++ [f64_div (inject_Z sample) scale]) w1
  end.

(** Both [irds[g]] and [pop[g]] are inside their vectors. *)
Definition group_ok (irds : list (@dist rng)) (pop : list f64) (g : Z)
  : Prop :=
  (exists d, vec_at irds g = Ok d) /\ (exists p, vec_at pop g = Ok p).

(** The invariant of the shared heap: a heap with one entry for each
    address, every entry in a group that [irds] and [pop] know. *)
Definition kd_inv (addrs : Z) (irds : list (@dist rng)) (pop : list f64)
           (heap : list group_tadr) : Prop :=
  is_heap group_tadr_cmp heap /\
  Permutation (map gt_addr heap) (addresses addrs) /\
  Forall (fun e => group_ok irds pop (gt_group e)) heap.

(** What setup records for an entry: its group is the one assigned to its
    address, and its virtual time is the clamped, scaled value of one draw
    of its group's IRD sampler. *)
Definition initial_entry (groups group_size : Z) (irds : list (@dist rng))
           (pop : list f64) (e : group_tadr) : Prop :=
  group_of groups group_size (gt_addr e) = Ok (gt_group e) /\
  exists d pop_g w,
    vec_at irds (gt_group e) = Ok d /\
    vec_at pop (gt_group e) = Ok pop_g /\
    gt_ird e = clamped_ird pop_g (to_int (fst (d w))).



End Grouped.

(** ** Request sizes, post-processing and the main programs *)

(** One output line ["<op> <size_bytes> <offset_bytes>"]: [ol_op] is the
    printed value of [!is_read], 0 for a read and 1 for a write. *)
Record out_line : Type := mk_out_line {
  ol_op : Z;
  ol_size : Z;
  ol_offset : Z
}.

(** [(size_t)groups] *)
Definition to_size_t (z : Z) : Z := z mod 2 ^ 64.

Section Programs.
Context {FO : FloatOps} {rng : Type} {SR : StdRandom rng}.
Context {SH : StdHeap tadr tadr_cmp}.
Context {SHG : StdHeap group_tadr group_tadr_cmp}.

(** The closure of [parse_request_sizes]: [idx = dis(rng); return s[idx]]. *)
Definition sizes_sampler (w : list f64) (s : list Z) : @dist rng :=
  fun r =>
    let (idx, r1) := discrete_distribution w r in
    (nth (Z.to_nat idx) s 0, r1).

Definition parse_request_sizes (arg : string) : result (@dist rng) :=
  let parts := split arg ":" in
  _ <- ensure (Nat.eqb (List.length parts) 2) FatalError ;;
  p0 <- vec_at parts 0 ;;
  p1 <- vec_at parts 1 ;;
  let weights_str := split p0 "," in
  let sizes_str := split p1 "," in
  _ <- ensure (Nat.eqb (List.length weights_str) (List.length sizes_str))
              FatalError ;;
  w <- mapM (fun x => of_option (stod x) Exception) weights_str ;;
  s <- mapM (fun x => of_option (stoi x) Exception) sizes_str ;;
  let w := normalise_vec w in
  Ok (sizes_sampler w s).

(** [parse_probabilities]: the normalised weights of a comma-separated
    list. *)
Definition parse_probabilities (s : string) : result (list f64) :=
  probs <- mapM (fun part => of_option (stod part) Exception) (split s ",") ;;
  Ok (normalise_vec probs).

(** The post-processing loop of the three [main]s: for each address one
    blend draw against [frac_read], one draw of the size sampler, one
    output line. *)
Fixpoint augment (addrs : list Z) (frac_read : f64) (sizedist : @dist rng)
         (blocksize : Z) (w : rng) : list out_line * rng :=
  match addrs with
  | [] => ([], w)
  | addr :: addrs' =>
    let (u, w1) := uniform_real_distribution w in
    let is_read := f64_ltb u frac_read in
    let (size, w2) := sizedist w1 in
    let (lines, w3) := augment addrs' frac_read sizedist blocksize w2 in
    (mk_out_line (if is_read then 0 else 1) (size * blocksize)
                 (addr * blocksize) :: lines, w3)
  end.

(** [main] of 2d-tracegen.cc after option parsing; [w] is the generator
    seeded by [rng(seed)]. *)
Definition td_main (num_addrs length : Z) (p_irm frac_read : f64)
           (blocksize : Z) (ird_arg irm_arg sizedist_arg : string) (w : rng)
  : result (list out_line) :=
  ird <- parse_ird ird_arg ;;
  irm <- parse_irm irm_arg num_addrs false ;;
  sizedist <- parse_request_sizes sizedist_arg ;;
  '(addrs, w1) <- td_gen num_addrs length p_irm ird irm w ;;
  Ok (fst (augment addrs frac_read sizedist blocksize w1)).

(** [main] of kd-tracegen.cc after option parsing. *)
Definition kd_main (num_addrs length groups : Z) (frac_read : f64)
           (blocksize : Z) (ird_arg irm_arg sizedist_arg : string) (w : rng)
  : result (list out_line) :=
  let ird_parts := split ird_arg ";" in
  _ <- ensure (Z.of_nat (List.length ird_parts) =? to_size_t groups)
              FatalError ;;
  irds <- mapM parse_ird ird_parts ;;
  irm_dist <- parse_irm irm_arg num_addrs true ;;
  let (pop, w1) := draw_pop (Z.to_nat groups) irm_dist [] w in
  sizedist <- parse_request_sizes sizedist_arg ;;
  '(addrs, w2) <- kd_gen num_addrs length irds pop w1 ;;
  Ok (fst (augment addrs frac_read sizedist blocksize w2)).

End Programs.

(** * Reference instances

    Executable instances of the three parameter classes, used to run the
    model on concrete inputs: exact rational arithmetic, a random stream
    replayed from a tape of raw draws, and a heap kept as a sorted vector
    (a sorted vector satisfies the heap property).  Their functions are
    defined here; that they meet the contracts is proved below. *)

(** ** Exact arithmetic and decimal parsers *)

Definition digit_of (c : ascii) : option Z :=
  let n := Z.of_nat (nat_of_ascii c) in
  if (48 <=? n) && (n <=? 57) then Some (n - 48) else None.

Fixpoint digits_value (s : string) (acc : Z) : option Z :=
  match s with
  | EmptyString => Some acc
  | String c s' =>
    match digit_of c with
    | Some d => digits_value s' (10 * acc + d)
    | None => None
    end
  end.

Definition decimal_Z (s : string) : option Z :=
  match s with
  | EmptyString => None
  | String "-"%char (String c s') =>
    option_map Z.opp (digits_value (String c s') 0)
  | _ => digits_value s 0
  end.

Definition decimal_stoi (s : string) : option Z :=
  match decimal_Z s with
  | Some z => if (INT_MIN <=? z) && (z <=? INT_MAX) then Some z else None
  | None => None
  end.

Definition decimal_stod (s : string) : option Q :=
  match index 0 "." s with
  | None => option_map inject_Z (decimal_Z s)
  | Some p =>
    let ip := substring 0 p s in
    let fp := substring (S p) (String.length s - S p) s in
    let negative := match s with String "-"%char _ => true | _ => false end in
    match decimal_Z ip, digits_value fp 0 with
    | Some i, Some f =>
      let den := 10 ^ Z.of_nat (String.length fp) in
      Some (Qred (Qmake (Z.abs i * den + f) (Z.to_pos den)
                  * (if negative then (-1 # 1) else (1 # 1)))%Q)
    | _, _ => None
    end
  end.

(** ** A random stream replayed from a tape *)

Definition tape : Type := list Z.

Definition tape_next (w : tape) : Z * tape :=
  match w with
  | [] => (0, [])
  | x :: w' => (x, w')
  end.

Definition tape_uniform_int (a b : Z) (w : tape) : Z * tape :=
  let (x, w') := tape_next w in (a + x mod Z.max 1 (b - a + 1), w').

Definition tape_discrete (ws : list f64) (w : tape) : Z * tape :=
  let (x, w') := tape_next w in
  (x mod Z.max 1 (Z.of_nat (List.length ws)), w').

Definition tape_uniform_real (w : tape) : f64 * tape :=
  let (x, w') := tape_next w in (Qmake (x mod 1000) 1000, w').

Definition tape_normal (mean stddev : f64) (w : tape) : f64 * tape :=
  let (x, w') := tape_next w in
  (Qred (mean + stddev * inject_Z x)%Q, w').

(** ** A heap kept as a sorted vector *)

Section SortedHeap.
Context {A : Type} (key : A -> Z).

Definition key_cmp (a b : A) : bool := key a >? key b.
Definition key_le (a b : A) : Prop := key a <= key b.

Fixpoint insert_sorted (x : A) (v : list A) : list A :=
  match v with
  | [] => [x]
  | y :: v' => if key x <? key y then x :: v else y :: insert_sorted x v'
  end.

Definition sort_by_key (v : list A) : list A :=
  fold_right insert_sorted [] v.

Definition sorted_pop_heap (v : list A) : list A :=
  match v with
  | [] => []
  | x :: v' => sort_by_key v' ++ [x]
  end.

End SortedHeap.

(** * Properties *)

(** ** The reference instances satisfy the contracts *)

Lemma decimal_stoi_fits (s : string) (z : Z) :
  decimal_stoi s = Some z -> fits_int z.
Proof.
  unfold decimal_stoi. destruct (decimal_Z s) as [z'|]; [|discriminate].
  destruct ((INT_MIN <=? z') && (z' <=? INT_MAX)) eqn:E; [|discriminate].
  intros [= <-]. apply andb_true_iff in E. destruct E as [E1 E2].
  apply Z.leb_le in E1, E2. now split.
Qed.

Lemma LLONG_MIN_fits : fits_i64 LLONG_MIN.
Proof. unfold fits_i64, LLONG_MIN, LLONG_MAX. lia. Qed.

#[export] Instance exact_ops : FloatOps := {|
  f64_add x y := Qred (x + y)%Q;
  f64_sub x y := Qred (x - y)%Q;
  f64_mul x y := Qred (x * y)%Q;
  f64_div x y := Qred (x / y)%Q;
  f64_pow x y := Qred (Qpower x (Qfloor y));
  stod := decimal_stod;
  stoi := decimal_stoi;
  stoi_fits := decimal_stoi_fits;
  (* x86-64: the conversion yields LLONG_MIN out of range *)
  llround_overflow _ := LLONG_MIN;
  llround_overflow_fits _ := LLONG_MIN_fits
|}.

Lemma tape_uniform_int_range (a b : Z) (w : tape) :
  a <= b -> a <= fst (tape_uniform_int a b w) <= b.
Proof.
  intros Hab. unfold tape_uniform_int. destruct (tape_next w) as [x w'].
  cbn [fst]. rewrite Z.max_r by lia.
  pose proof (Z.mod_pos_bound x (b - a + 1) ltac:(lia)). lia.
Qed.

Lemma tape_discrete_range (ws : list f64) (w : tape) :
  0 <= fst (tape_discrete ws w) < Z.max 1 (Z.of_nat (List.length ws)).
Proof.
  unfold tape_discrete. destruct (tape_next w) as [x w']. cbn [fst].
  apply Z.mod_pos_bound. lia.
Qed.

Lemma tape_uniform_real_range (w : tape) :
  (0 <= fst (tape_uniform_real w))%Q /\ (fst (tape_uniform_real w) < 1)%Q.
Proof.
  unfold tape_uniform_real. destruct (tape_next w) as [x w']. cbn [fst].
  pose proof (Z.mod_pos_bound x 1000 ltac:(lia)) as Hm.
  unfold Qle, Qlt. cbn [Qnum Qden]. lia.
Qed.

#[export] Instance tape_random : StdRandom tape := {|
  uniform_int_distribution := tape_uniform_int;
  uniform_int_range := tape_uniform_int_range;
  discrete_distribution := tape_discrete;
  discrete_range := tape_discrete_range;
  uniform_real_distribution := tape_uniform_real;
  uniform_real_range := tape_uniform_real_range;
  normal_distribution := tape_normal
|}.

Section SortedHeapLaws.
Context {A : Type} (key : A -> Z).

Lemma insert_sorted_perm (x : A) (v : list A) :
  Permutation (x :: v) (insert_sorted key x v).
Proof.
  induction v as [|y v IH]; cbn [insert_sorted]; [reflexivity|].
  destruct (key x <? key y); [reflexivity|].
  rewrite perm_swap. now apply perm_skip.
Qed.

Lemma sort_by_key_perm (v : list A) : Permutation v (sort_by_key key v).
Proof.
  induction v as [|x v IH]; cbn [sort_by_key fold_right]; [reflexivity|].
  rewrite <- insert_sorted_perm. now apply perm_skip.
Qed.

Lemma insert_sorted_sorted (x : A) (v : list A) :
  StronglySorted (key_le key) v ->
  StronglySorted (key_le key) (insert_sorted key x v).
Proof.
  induction v as [|y v IH]; intros Hs; cbn [insert_sorted].
  - repeat constructor.
  - inversion Hs as [|? ? Hs' Hall]; subst.
    destruct (key x <? key y) eqn:E.
    + apply Z.ltb_lt in E. constructor; [exact Hs|].
      constructor; [unfold key_le; lia|].
      eapply Forall_impl; [|exact Hall]. unfold key_le. intros; lia.
    + apply Z.ltb_ge in E. constructor; [now apply IH|].
      eapply Permutation_Forall; [apply insert_sorted_perm|].
      constructor; [exact E|exact Hall].
Qed.

Lemma sort_by_key_sorted (v : list A) :
  StronglySorted (key_le key) (sort_by_key key v).
Proof.
  induction v as [|x v IH]; cbn [sort_by_key fold_right].
  - constructor.
  - now apply insert_sorted_sorted.
Qed.

Lemma sorted_nth_le (v : list A) :
  StronglySorted (key_le key) v ->
  forall i j a b, (i < j)%nat ->
    nth_error v i = Some a -> nth_error v j = Some b -> key a <= key b.
Proof.
  induction 1 as [|x v Hs IH Hall]; intros i j a b Hij Hi Hj.
  - destruct i; discriminate.
  - destruct j as [|j]; [lia|]. cbn [nth_error] in Hj.
    destruct i as [|i]; cbn [nth_error] in Hi.
    + injection Hi as <-. apply nth_error_In in Hj.
      rewrite Forall_forall in Hall. now apply Hall.
    + eapply IH; [|exact Hi|exact Hj]. lia.
Qed.

Lemma sorted_is_heap (v : list A) :
  StronglySorted (key_le key) v -> is_heap (key_cmp key) v.
Proof.
  intros Hs i p c Hi Hp Hc. unfold key_cmp. rewrite Z.gtb_ltb.
  apply Z.ltb_ge.
  eapply sorted_nth_le; [exact Hs| |exact Hp|exact Hc].
  apply Nat.Div0.div_lt_upper_bound; lia.
Qed.

(** The front of a heap carries a least key. *)
Lemma heap_front_least (x : A) (v : list A) :
  is_heap (key_cmp key) (x :: v) ->
  forall c, In c (x :: v) -> key x <= key c.
Proof.
  intros Hh.
  assert (Hi : forall n i c, (i < n)%nat ->
                 nth_error (x :: v) i = Some c -> key x <= key c).
  { induction n as [|n IH]; intros i c Hlt Hc; [lia|].
    destruct i as [|i].
    - cbn in Hc. injection Hc as <-. lia.
    - assert (Hpar : ((S i - 1) / 2 < S i)%nat)
        by (apply Nat.Div0.div_lt_upper_bound; lia).
      set (q := ((S i - 1) / 2)%nat) in *.
      destruct (nth_error (x :: v) q) as [p|] eqn:Ep.
      + assert (Hpc : key_cmp key p c = false)
          by (apply (Hh (S i) p c); [lia|exact Ep|exact Hc]).
        unfold key_cmp in Hpc. rewrite Z.gtb_ltb in Hpc.
        apply Z.ltb_ge in Hpc.
        assert (key x <= key p) by (apply (IH q p); [lia|exact Ep]). lia.
      + apply nth_error_None in Ep.
        assert (S i < List.length (x :: v))%nat
          by (apply nth_error_Some; congruence).
        lia. }
  intros c Hc. apply In_nth_error in Hc. destruct Hc as [i Hc].
  apply (Hi (S i) i c ltac:(lia) Hc).
Qed.

Lemma sorted_pop_heap_spec (x : A) (v : list A) :
  is_heap (key_cmp key) (x :: v) ->
  exists v', sorted_pop_heap key (x :: v) = v' ++ [x] /\
             Permutation v v' /\ is_heap (key_cmp key) v'.
Proof.
  intros _. exists (sort_by_key key v). split; [reflexivity|].
  split; [apply sort_by_key_perm|].
  apply sorted_is_heap, sort_by_key_sorted.
Qed.

Definition sorted_heap : StdHeap A (key_cmp key) := {|
  make_heap := sort_by_key key;
  pop_heap := sorted_pop_heap key;
  push_heap := sort_by_key key;
  make_heap_perm := sort_by_key_perm;
  make_heap_is_heap v := sorted_is_heap _ (sort_by_key_sorted v);
  pop_heap_spec := sorted_pop_heap_spec;
  push_heap_perm v x _ := sort_by_key_perm (v ++ [x]);
  push_heap_is_heap v x _ := sorted_is_heap _ (sort_by_key_sorted (v ++ [x]))
|}.

End SortedHeapLaws.

#[export] Instance tadr_heap : StdHeap tadr tadr_cmp := sorted_heap ird.
#[export] Instance group_tadr_heap : StdHeap group_tadr group_tadr_cmp :=
  sorted_heap gt_ird.

(** ** Interval tables and the two-stage draw *)

Lemma get_intervals_loop_closed (n : nat) :
  forall i width max acc,
    get_intervals_loop n i width max acc =
    acc ++ map (fun k => ((i + Z.of_nat k - 1) * width,
                          Z.min ((i + Z.of_nat k) * width - 1) (max - 1)))
               (seq 0 n).
Proof.
  induction n as [|n IH]; intros i width max acc; cbn [get_intervals_loop].
  - now rewrite app_nil_r.
  - rewrite IH, <- app_assoc. f_equal.
    cbn [seq map app]. rewrite <- seq_shift, map_map.
    f_equal.
    + f_equal; [f_equal|f_equal; f_equal]; lia.
    + apply map_ext. intros k. f_equal; [f_equal|f_equal; f_equal]; lia.
Qed.

Lemma get_intervals_ok (classes max : Z) :
  0 < classes <= max ->
  get_intervals classes max =
  Ok (map (fun k => (Z.of_nat k * (max / classes),
                     (Z.of_nat k + 1) * (max / classes) - 1))
          (seq 0 (Z.to_nat classes))).
Proof.
  intros Hc. unfold get_intervals.
  replace ((0 <? classes) && (0 <? max) && (classes <=? max)) with true
    by (symmetry; rewrite !andb_true_iff; repeat split;
        [apply Z.ltb_lt | apply Z.ltb_lt | apply Z.leb_le]; lia).
  cbn [ensure bind]. rewrite get_intervals_loop_closed. cbn [app].
  rewrite Z.quot_div_nonneg by lia. f_equal.
  apply map_ext_in. intros k Hk. apply in_seq in Hk.
  assert (Hw : classes * (max / classes) <= max)
    by (apply Z.mul_div_le; lia).
  f_equal; [f_equal; lia|].
  rewrite Z.min_l; [f_equal; f_equal; lia|]. nia.
Qed.

Lemma nth_tabulate {B} (f : nat -> B) (n i : nat) (d : B) :
  (i < n)%nat -> nth i (map f (seq 0 n)) d = f i.
Proof.
  intros Hi.
  rewrite (nth_indep _ d (f 0%nat)) by (now rewrite length_map, length_seq).
  rewrite map_nth, seq_nth by exact Hi. reflexivity.
Qed.

Lemma covered_tabulate (width : Z) (n : nat) (a : Z) :
  1 <= width ->
  covered (map (fun k => (Z.of_nat k * width, (Z.of_nat k + 1) * width - 1))
               (seq 0 n)) a <->
  0 <= a < Z.of_nat n * width.
Proof.
  intros Hw. unfold covered. split.
  - intros [iv [Hin Ha]]. apply in_map_iff in Hin.
    destruct Hin as [k [<- Hk]]. apply in_seq in Hk. cbn [fst snd] in Ha. nia.
  - intros Ha.
    exists (Z.of_nat (Z.to_nat (a / width)) * width,
            (Z.of_nat (Z.to_nat (a / width)) + 1) * width - 1).
    assert (Hq : 0 <= a / width) by (apply Z.div_pos; lia).
    assert (Hlt : a / width < Z.of_nat n)
      by (apply Z.div_lt_upper_bound; nia).
    split.
    + apply in_map_iff. exists (Z.to_nat (a / width)). split; [reflexivity|].
      apply in_seq. lia.
    + cbn [fst snd]. rewrite Z2Nat.id by exact Hq.
      pose proof (Z.mul_div_le a width ltac:(lia)).
      pose proof (Z.mul_succ_div_gt a width ltac:(lia)). nia.
Qed.

Section SamplerProps.
Context {FO : FloatOps} {rng : Type} {SR : StdRandom rng}.

Lemma zipf_weights_length (alpha : f64) (classes : Z) :
  List.length (zipf_weights alpha classes) = Z.to_nat classes.
Proof.
  unfold zipf_weights, normalise_vec, class_indices.
  now rewrite !length_map, length_seq.
Qed.

Lemma pareto_weights_length (xm alpha : f64) (classes : Z) :
  List.length (pareto_weights xm alpha classes) = Z.to_nat classes.
Proof.
  unfold pareto_weights, normalise_vec, class_indices.
  now rewrite !length_map, length_seq.
Qed.

Lemma two_stage_is_draw (weights : list f64) (classes max : Z) :
  0 < classes <= max ->
  List.length weights = Z.to_nat classes ->
  two_stage_draw weights classes (max / classes) max
    (two_stage weights
       (map (fun k => (Z.of_nat k * (max / classes),
                       (Z.of_nat k + 1) * (max / classes) - 1))
            (seq 0 (Z.to_nat classes)))).
Proof.
  intros Hc Hlen w. cbv zeta.
  pose proof (discrete_range weights w) as Hidx. rewrite Hlen in Hidx.
  rewrite Z2Nat.id, Z.max_r in Hidx by lia.
  assert (Hw : 1 <= max / classes)
    by (apply Z.div_le_lower_bound; lia).
  assert (Hm : classes * (max / classes) <= max)
    by (apply Z.mul_div_le; lia).
  unfold two_stage.
  destruct (discrete_distribution weights w) as [idx w1]. cbn [fst snd] in *.
  rewrite nth_tabulate by lia. cbn [fst snd]. rewrite Z2Nat.id by lia.
  split; [exact Hidx|]. split; [reflexivity|].
  pose proof (uniform_int_range (idx * (max / classes))
                ((idx + 1) * (max / classes) - 1) w1 ltac:(nia)) as Hu.
  split; [exact Hu|]. nia.
Qed.

End SamplerProps.

Section IntervalTable.
Context {FO : FloatOps} {rng : Type} {SR : StdRandom rng}.

(** C1 (as amended).  For [0 < classes <= max] the interval table of
    [get_intervals] holds [classes] contiguous intervals of width
    [max / classes], the i-th being [i*width, (i+1)*width - 1]; their union
    is exactly [0, classes*width), which is all of [0, max) exactly when
    [classes] divides [max]: the last interval ends at [classes*width - 1]
    and takes no remainder.  Every draw of [zipf_dist] and of [pareto_dist]
    picks a class with the discrete distribution over the normalised
    power-law weights and then draws uniformly in that class's interval,
    so it lands in [0, max). *)
Theorem get_intervals_table_and_draw (classes max : Z) :
  0 < classes <= max ->
  let width := max / classes in
  exists ivs,
    get_intervals classes max = Ok ivs /\
    List.length ivs = Z.to_nat classes /\
    1 <= width /\ classes * width <= max /\
    (forall i, 0 <= i < classes ->
       nth (Z.to_nat i) ivs (0, 0) = (i * width, (i + 1) * width - 1)) /\
    (forall a, covered ivs a <-> 0 <= a < classes * width) /\
    ((forall a, 0 <= a < max -> covered ivs a) <-> max mod classes = 0) /\
    (forall alpha, f64_ltb 0%Q alpha = true ->
       exists d : @dist rng,
         zipf_dist alpha classes max = Ok d /\
         two_stage_draw (zipf_weights alpha classes) classes width max d) /\
    (forall xm alpha, f64_ltb 0%Q xm = true -> f64_ltb 0%Q alpha = true ->
       exists d : @dist rng,
         pareto_dist xm alpha classes max = Ok d /\
         two_stage_draw (pareto_weights xm alpha classes) classes width max d).
Proof.
  intros Hc width.
  assert (Hw : 1 <= width) by (apply Z.div_le_lower_bound; lia).
  assert (Hm : classes * width <= max) by (apply Z.mul_div_le; lia).
  assert (Hcov : forall a,
             covered (map (fun k => (Z.of_nat k * width,
                                     (Z.of_nat k + 1) * width - 1))
                          (seq 0 (Z.to_nat classes))) a <->
             0 <= a < classes * width).
  { intros a. rewrite covered_tabulate by exact Hw.
    rewrite Z2Nat.id by lia. reflexivity. }
  eexists. split; [apply get_intervals_ok; exact Hc|]. fold width.
  split; [now rewrite length_map, length_seq|].
  split; [exact Hw|]. split; [exact Hm|].
  split.
  { intros i Hi. rewrite nth_tabulate by lia. now rewrite Z2Nat.id by lia. }
  split; [exact Hcov|].
  split.
  { pose proof (Z.mod_eq max classes ltac:(lia)) as Hmod. fold width in Hmod.
    split.
    - intros Hall. specialize (Hall (max - 1) ltac:(lia)).
      apply Hcov in Hall. lia.
    - intros H0 a Ha. apply Hcov. lia. }
  split.
  - intros alpha Ha. unfold zipf_dist.
    rewrite Ha. replace (0 <? classes) with true
      by (symmetry; apply Z.ltb_lt; lia).
    cbn [andb ensure bind]. rewrite get_intervals_ok by exact Hc.
    cbn [bind]. rewrite zipf_weights_length, length_map, length_seq.
    rewrite Nat.eqb_refl. cbn [ensure bind].
    eexists. split; [reflexivity|].
    apply two_stage_is_draw; [exact Hc|apply zipf_weights_length].
  - intros xm alpha Hx Ha. unfold pareto_dist.
    rewrite Hx, Ha. replace (0 <? classes) with true
      by (symmetry; apply Z.ltb_lt; lia).
    cbn [andb ensure bind]. rewrite get_intervals_ok by exact Hc.
    cbn [bind]. rewrite pareto_weights_length, length_map, length_seq.
    rewrite Nat.eqb_refl. cbn [ensure bind].
    eexists. split; [reflexivity|].
    apply two_stage_is_draw; [exact Hc|apply pareto_weights_length].
Qed.

End IntervalTable.

Lemma get_intervals_table_and_draw_witness :
  0 < 3 <= 10 /\
  exists ivs,
    get_intervals 3 10 = Ok ivs /\
    (forall a, covered ivs a <-> 0 <= a < 3 * (10 / 3)).
Proof.
  split; [lia|].
  destruct (@get_intervals_table_and_draw exact_ops tape tape_random 3 10
              ltac:(lia)) as [ivs [H1 [_ [_ [_ [_ [H2 _]]]]]]].
  exists ivs. split; [exact H1|exact H2].
Defined.

(** With three classes over ten addresses the table is [0,2], [3,5],
    [6,8]: the last interval stops at 8, not at [max - 1 = 9], and address
    9 lies in no interval, so the union does not cover [0, max). *)
Lemma get_intervals_remainder_uncovered :
  0 < 3 <= 10 /\
  get_intervals 3 10 = Ok [(0, 2); (3, 5); (6, 8)] /\
  snd (last [(0, 2); (3, 5); (6, 8)] (0, 0)) <> 10 - 1 /\
  ~ covered [(0, 2); (3, 5); (6, 8)] 9 /\
  ~ (forall ivs, get_intervals 3 10 = Ok ivs ->
       snd (last ivs (0, 0)) = 10 - 1 /\
       forall a, 0 <= a < 10 -> covered ivs a).
Proof.
  split; [lia|]. split; [reflexivity|]. split; [cbn; lia|].
  assert (Hnc : ~ covered [(0, 2); (3, 5); (6, 8)] 9).
  { intros [iv [Hin Ha]]. cbn [In] in Hin.
    destruct Hin as [<-|[<-|[<-|[]]]]; cbn [fst snd] in Ha; lia. }
  split; [exact Hnc|].
  intros H. destruct (H _ eq_refl) as [_ Hall].
  apply Hnc, Hall. lia.
Qed.

(** ** The heap contract, as used by [heappop] and [heappush] *)

Section HeapFacts.
Context {A : Type} {cmp : A -> A -> bool} {SH : StdHeap A cmp}.

Lemma pop_back_snoc (v : list A) (x : A) : pop_back (v ++ [x]) = Some (v, x).
Proof.
  unfold pop_back. rewrite rev_app_distr. cbn [rev app].
  now rewrite rev_involutive.
Qed.

(** On a non-empty heap [heappop] returns the front and leaves a heap
    holding the other entries. *)
Lemma heappop_front (x : A) (v : list A) :
  is_heap cmp (x :: v) ->
  exists v', heappop (x :: v) = Ok (x, v') /\
             Permutation v v' /\ is_heap cmp v'.
Proof.
  intros Hh. destruct (pop_heap_spec x v Hh) as [v' [Hp [Hperm Hh']]].
  exists v'. unfold heappop. rewrite Hp, pop_back_snoc. auto.
Qed.

Lemma heappop_inv (h : list A) (m : A) (h' : list A) :
  is_heap cmp h -> heappop h = Ok (m, h') ->
  Permutation h (m :: h') /\ is_heap cmp h' /\ hd_error h = Some m.
Proof.
  intros Hh Hpop. destruct h as [|x v]; [discriminate|].
  destruct (heappop_front x v Hh) as [v' [E [Hperm Hh']]].
  rewrite E in Hpop. injection Hpop as <- <-.
  split; [now apply perm_skip|]. split; [exact Hh'|reflexivity].
Qed.

Lemma heappush_entry_perm (h : list A) (e : A) :
  is_heap cmp h -> Permutation (e :: h) (heappush_entry h e).
Proof.
  intros Hh. unfold heappush_entry. rewrite <- push_heap_perm by exact Hh.
  apply Permutation_cons_append.
Qed.

Lemma heappush_entry_is_heap (h : list A) (e : A) :
  is_heap cmp h -> is_heap cmp (heappush_entry h e).
Proof. intros Hh. now apply push_heap_is_heap. Qed.

End HeapFacts.

(** ** The blended generator *)

Lemma addresses_length (addrs : Z) :
  List.length (addresses addrs) = Z.to_nat addrs.
Proof. unfold addresses. now rewrite length_map, length_seq. Qed.

Lemma perm_map_length {A} (f : A -> Z) (h : list A) (addrs : Z) :
  Permutation (map f h) (addresses addrs) -> List.length h = Z.to_nat addrs.
Proof.
  intros Hp. apply Permutation_length in Hp.
  now rewrite length_map, addresses_length in Hp.
Qed.

Section BlendedProps.
Context {rng : Type} {SR : StdRandom rng} {SH : StdHeap tadr tadr_cmp}.

Lemma init_irds_addrs (n : nat) :
  forall a (d : @dist rng) irds w,
    map addr (fst (init_irds n a d irds w)) =
    map addr irds ++ map (fun k => a + Z.of_nat k) (seq 0 n).
Proof.
  induction n as [|n IH]; intros a d irds w; cbn [init_irds].
  - now rewrite app_nil_r.
  - destruct (d w) as [x w1]. rewrite IH, map_app, <- app_assoc.
    cbn [map app seq addr]. f_equal. rewrite <- seq_shift, map_map.
    f_equal; [f_equal; lia|]. apply map_ext. intros k. lia.
Qed.

Lemma gen_setup_inv (addrs : Z) (d_ird : @dist rng) (w : rng) :
  irds_inv addrs (g_irds (gen_setup addrs d_ird w)) /\
  g_trace (gen_setup addrs d_ird w) = [].
Proof.
  unfold gen_setup.
  pose proof (init_irds_addrs (Z.to_nat addrs) 0 d_ird [] w) as Ha.
  destruct (init_irds (Z.to_nat addrs) 0 d_ird [] w) as [irds w1].
  cbn [fst map app] in Ha. cbn [g_irds g_trace].
  split; [|reflexivity]. split; [apply make_heap_is_heap|].
  rewrite <- (make_heap_perm irds), Ha. reflexivity.
Qed.

Lemma td_step_eq addrs p_irm (d_ird d_irm : @dist rng) st :
  td_step addrs p_irm d_ird d_irm st = gen_step addrs p_irm d_ird d_irm st.
Proof. reflexivity. Qed.

Lemma td_loop_eq n : forall addrs p_irm (d_ird d_irm : @dist rng) st,
  td_loop n addrs p_irm d_ird d_irm st = gen_loop n addrs p_irm d_ird d_irm st.
Proof.
  induction n as [|n IH]; intros; cbn [td_loop gen_loop]; [reflexivity|].
  rewrite td_step_eq. destruct (gen_step _ _ _ _ _); cbn [bind]; auto.
Qed.

Lemma td_gen_eq addrs length p_irm (d_ird d_irm : @dist rng) w :
  td_gen addrs length p_irm d_ird d_irm w =
  gen_addresses addrs length p_irm d_ird d_irm w.
Proof. unfold td_gen, gen_addresses. now rewrite td_loop_eq. Qed.

(** The two branches of a step, by the blend draw. *)
Lemma gen_step_irm addrs p_irm (d_ird d_irm : @dist rng) st :
  f64_ltb (fst (uniform_real_distribution (g_rng st))) p_irm = true ->
  let w1 := snd (uniform_real_distribution (g_rng st)) in
  let a := fst (d_irm w1) in
  gen_step addrs p_irm d_ird d_irm st =
  if a <? addrs
  then Ok (mk_gen_state (g_irds st) (g_trace st ++ [a]) (snd (d_irm w1)))
  else Err AssertionFailed.
Proof.
  intros Hu. cbv zeta. unfold gen_step.
  destruct (uniform_real_distribution (g_rng st)) as [u w1].
  cbn [fst snd] in *. rewrite Hu.
  destruct (d_irm w1) as [a w2]. cbn [fst snd].
  destruct (a <? addrs); reflexivity.
Qed.

Lemma gen_step_schedule addrs p_irm (d_ird d_irm : @dist rng) st :
  f64_ltb (fst (uniform_real_distribution (g_rng st))) p_irm = false ->
  let w1 := snd (uniform_real_distribution (g_rng st)) in
  let ird_sample := fst (d_ird w1) in
  gen_step addrs p_irm d_ird d_irm st =
  if (0 <=? ird_sample) && (ird_sample <? addrs)
  then '(min_ird, irds) <- heappop (g_irds st) ;;
       Ok (mk_gen_state
             (heappush irds (ird min_ird + ird_sample) (addr min_ird))
             (g_trace st ++ [addr min_ird]) (snd (d_ird w1)))
  else Err AssertionFailed.
Proof.
  intros Hu. cbv zeta. unfold gen_step.
  destruct (uniform_real_distribution (g_rng st)) as [u w1].
  cbn [fst snd] in *. rewrite Hu.
  destruct (d_ird w1) as [s w2]. cbn [fst snd].
  destruct ((0 <=? s) && (s <? addrs)); reflexivity.
Qed.

(** The entry that [heappop] returns carries a least virtual time. *)
Lemma heappop_least (h : list tadr) (m : tadr) (h' : list tadr) :
  is_heap tadr_cmp h -> heappop h = Ok (m, h') ->
  forall e, In e h -> ird m <= ird e.
Proof.
  intros Hh Hpop e He.
  destruct (heappop_inv _ _ _ Hh Hpop) as [_ [_ Hhd]].
  destruct h as [|x v]; [discriminate|]. cbn in Hhd. injection Hhd as ->.
  exact (heap_front_least ird m v Hh e He).
Qed.

Lemma gen_step_inv addrs p_irm (d_ird d_irm : @dist rng) st st' :
  irds_inv addrs (g_irds st) ->
  gen_step addrs p_irm d_ird d_irm st = Ok st' ->
  irds_inv addrs (g_irds st').
Proof.
  intros [Hh Hp] Hstep.
  destruct (f64_ltb (fst (uniform_real_distribution (g_rng st))) p_irm) eqn:Hu.
  - rewrite gen_step_irm in Hstep by exact Hu.
    destruct (_ <? addrs); [|discriminate].
    injection Hstep as <-. cbn [g_irds]. now split.
  - rewrite gen_step_schedule in Hstep by exact Hu.
    destruct (_ && _); [|discriminate].
    destruct (heappop (g_irds st)) as [[m h']|] eqn:Hpop; [|discriminate].
    cbn [bind] in Hstep. injection Hstep as <-. cbn [g_irds].
    destruct (heappop_inv _ _ _ Hh Hpop) as [Hperm [Hh' _]].
    split; [now apply heappush_entry_is_heap|].
    unfold heappush. rewrite <- heappush_entry_perm by exact Hh'.
    cbn [map addr]. rewrite <- Hp, Hperm. reflexivity.
Qed.

Lemma gen_loop_inv (n : nat) :
  forall addrs p_irm (d_ird d_irm : @dist rng) st st',
    irds_inv addrs (g_irds st) ->
    gen_loop n addrs p_irm d_ird d_irm st = Ok st' ->
    irds_inv addrs (g_irds st').
Proof.
  induction n as [|n IH]; intros addrs p_irm d_ird d_irm st st' Hinv Hl;
    cbn [gen_loop] in Hl.
  - now injection Hl as <-.
  - destruct (gen_step addrs p_irm d_ird d_irm st) as [st1|] eqn:Hs;
      [|discriminate].
    cbn [bind] in Hl. eapply IH; [|exact Hl].
    eapply gen_step_inv; eauto.
Qed.

Lemma gen_step_progress addrs p_irm (d_ird d_irm : @dist rng) st :
  0 < addrs ->
  (forall w, 0 <= fst (d_ird w) < addrs) ->
  (forall w, fst (d_irm w) < addrs) ->
  irds_inv addrs (g_irds st) ->
  exists st', gen_step addrs p_irm d_ird d_irm st = Ok st'.
Proof.
  intros Hpos Hird Hirm [Hh Hp].
  destruct (f64_ltb (fst (uniform_real_distribution (g_rng st))) p_irm) eqn:Hu.
  - rewrite gen_step_irm by exact Hu.
    replace (_ <? addrs) with true by (symmetry; apply Z.ltb_lt, Hirm).
    eauto.
  - rewrite gen_step_schedule by exact Hu.
    match goal with |- context [?a && ?b] => replace (a && b) with true end.
    2:{ symmetry. apply andb_true_iff.
        split; [apply Z.leb_le|apply Z.ltb_lt]; apply Hird. }
    apply perm_map_length in Hp.
    destruct (g_irds st) as [|x v] eqn:E; [cbn in Hp; lia|].
    destruct (heappop_front x v Hh) as [v' [Hpop _]].
    rewrite Hpop. cbn [bind]. eauto.
Qed.

Lemma gen_loop_progress (n : nat) :
  forall addrs p_irm (d_ird d_irm : @dist rng) st,
    0 < addrs ->
    (forall w, 0 <= fst (d_ird w) < addrs) ->
    (forall w, fst (d_irm w) < addrs) ->
    irds_inv addrs (g_irds st) ->
    exists st', gen_loop n addrs p_irm d_ird d_irm st = Ok st'.
Proof.
  induction n as [|n IH]; intros addrs p_irm d_ird d_irm st Hpos Hird Hirm Hinv;
    cbn [gen_loop].
  - eauto.
  - destruct (gen_step_progress addrs p_irm d_ird d_irm st Hpos Hird Hirm Hinv)
      as [st1 Hs].
    rewrite Hs. cbn [bind]. apply IH; auto.
    eapply gen_step_inv; eauto.
Qed.

End BlendedProps.

(** ** The grouped generator *)

Lemma to_int_small (z : Z) : fits_int z -> to_int z = z.
Proof.
  unfold fits_int, INT_MIN, INT_MAX, to_int. intros Hz.
  rewrite Z.mod_small; lia.
Qed.

Lemma to_int_range (z : Z) : fits_int (to_int z).
Proof.
  unfold fits_int, INT_MIN, INT_MAX, to_int.
  pose proof (Z.mod_pos_bound (z + 2 ^ 31) (2 ^ 32) ltac:(lia)). lia.
Qed.

Lemma vec_at_ok {A} (v : list A) (i : Z) :
  0 <= i < Z.of_nat (List.length v) -> exists x, vec_at v i = Ok x.
Proof.
  intros Hi. unfold vec_at.
  replace (i <? 0) with false by (symmetry; apply Z.ltb_ge; lia).
  destruct (nth_error v (Z.to_nat i)) as [x|] eqn:E; [eauto|].
  apply nth_error_None in E. lia.
Qed.

Lemma vec_at_range {A} (v : list A) (i : Z) (x : A) :
  vec_at v i = Ok x -> 0 <= i < Z.of_nat (List.length v).
Proof.
  unfold vec_at. destruct (i <? 0) eqn:E; [discriminate|].
  apply Z.ltb_ge in E.
  destruct (nth_error v (Z.to_nat i)) as [y|] eqn:En; [|discriminate].
  intros _. assert (Hlt : (Z.to_nat i < List.length v)%nat)
    by (apply nth_error_Some; congruence).
  lia.
Qed.

(** Under [0 < groups <= addrs] the divisor [addrs / groups] is positive
    and every address receives the group [a / (addrs / groups)], cut off at
    [groups - 1].  The quotient stays below [2 * groups], so it fits [int]
    as long as [groups <= 2^30]. *)
Lemma group_of_in_range (groups addrs a : Z) :
  0 < groups <= addrs -> groups <= 2 ^ 30 -> 0 <= a < addrs ->
  group_of groups (Z.quot addrs groups) a =
    Ok (Z.min (a / (addrs / groups)) (groups - 1)) /\
  0 <= Z.min (a / (addrs / groups)) (groups - 1) < groups.
Proof.
  intros Hg Hb Ha. unfold group_of.
  rewrite Z.quot_div_nonneg by lia.
  set (gs := addrs / groups).
  assert (Hgs : 1 <= gs) by (apply Z.div_le_lower_bound; lia).
  replace (gs =? 0) with false by (symmetry; apply Z.eqb_neq; lia).
  cbn [negb ensure bind].
  rewrite Z.quot_div_nonneg by lia.
  assert (Hq0 : 0 <= a / gs) by (apply Z.div_pos; lia).
  assert (Hq1 : a / gs < 2 * groups).
  { apply Z.div_lt_upper_bound; [lia|].
    pose proof (Z.mul_succ_div_gt addrs groups ltac:(lia)). fold gs in H. nia. }
  rewrite to_int_small by (unfold fits_int, INT_MIN, INT_MAX; lia).
  rewrite Z.geb_leb. split; [|lia].
  f_equal. destruct (groups <=? a / gs) eqn:E.
  - apply Z.leb_le in E. lia.
  - apply Z.leb_gt in E. lia.
Qed.

Section GroupedProps.
Context {FO : FloatOps} {rng : Type} {SR : StdRandom rng}.
Context {SH : StdHeap group_tadr group_tadr_cmp}.

Lemma initial_entry_group_ok groups group_size (irds : list (@dist rng))
      pop e :
  initial_entry groups group_size irds pop e ->
  group_ok irds pop (gt_group e).
Proof. intros [_ [d [p [w [Hd [Hp _]]]]]]. split; eauto. Qed.

Lemma kd_init_spec (n : nat) :
  forall a groups group_size (irds : list (@dist rng)) pop heap w heap' w',
    kd_init n a groups group_size irds pop heap w = Ok (heap', w') ->
    map gt_addr heap' =
      map gt_addr heap ++ map (fun k => a + Z.of_nat k) (seq 0 n) /\
    (Forall (initial_entry groups group_size irds pop) heap ->
     Forall (initial_entry groups group_size irds pop) heap').
Proof.
  induction n as [|n IH];
    intros a groups group_size irds pop heap w heap' w' Hk;
    cbn [kd_init] in Hk.
  - injection Hk as <- <-. now rewrite app_nil_r.
  - destruct (group_of groups group_size a) as [g|] eqn:Hg; [|discriminate].
    cbn [bind] in Hk.
    destruct (vec_at irds g) as [d|] eqn:Hd; [|discriminate].
    cbn [bind] in Hk. destruct (d w) as [x w1] eqn:Hx.
    destruct (vec_at pop g) as [p|] eqn:Hp; [|discriminate].
    cbn [bind] in Hk. apply IH in Hk. destruct Hk as [Hmap Hall].
    split.
    + rewrite Hmap, map_app, <- app_assoc. cbn [map app seq gt_addr].
      f_equal. rewrite <- seq_shift, map_map.
      f_equal; [f_equal; lia|]. apply map_ext. intros k. lia.
    + intros Hheap. apply Hall. apply Forall_app. split; [exact Hheap|].
      constructor; [|constructor]. split; [exact Hg|].
      exists d, p, w. cbn [gt_group gt_ird]. rewrite Hx. auto.
Qed.

Lemma kd_init_progress (n : nat) :
  forall a addrs (irds : list (@dist rng)) pop heap w,
    let groups := Z.of_nat (List.length irds) in
    0 < groups <= addrs -> groups <= 2 ^ 30 ->
    groups <= Z.of_nat (List.length pop) ->
    0 <= a -> a + Z.of_nat n <= addrs ->
    exists r, kd_init n a groups (Z.quot addrs groups) irds pop heap w = Ok r.
Proof.
  induction n as [|n IH];
    intros a addrs irds pop heap w groups Hg Hb Hpop Ha Han; cbn [kd_init].
  - eauto.
  - destruct (group_of_in_range groups addrs a Hg Hb ltac:(lia)) as [Hgo Hr].
    rewrite Hgo. cbn [bind].
    destruct (vec_at_ok irds _ Hr) as [d Hd]. rewrite Hd. cbn [bind].
    destruct (d w) as [x w1].
    destruct (vec_at_ok pop (Z.min (a / (addrs / groups)) (groups - 1))
                ltac:(lia)) as [p Hp].
    rewrite Hp. cbn [bind]. apply IH; auto; lia.
Qed.

Lemma kd_setup_inv addrs (irds : list (@dist rng)) pop w st :
  kd_setup addrs irds pop w = Ok st ->
  kd_inv addrs irds pop (k_heap st) /\ k_trace st = [] /\
  Forall (initial_entry (to_int (Z.of_nat (List.length irds)))
            (Z.quot addrs (to_int (Z.of_nat (List.length irds)))) irds pop)
         (k_heap st).
Proof.
  unfold kd_setup. set (groups := to_int (Z.of_nat (List.length irds))).
  destruct (negb (groups =? 0)); [|discriminate]. cbn [ensure bind].
  destruct (0 <=? addrs); [|discriminate]. cbn [ensure bind].
  destruct (kd_init _ _ _ _ _ _ _ _) as [[heap w1]|] eqn:Hk; [|discriminate].
  cbn [bind]. intros Hst. injection Hst as <-. cbn [k_heap k_trace].
  apply kd_init_spec in Hk. destruct Hk as [Hmap Hall].
  specialize (Hall (Forall_nil _)). cbn [map app] in Hmap.
  assert (Hall' : Forall (initial_entry groups (Z.quot addrs groups) irds pop)
                         (make_heap heap))
    by (eapply Permutation_Forall; [apply make_heap_perm|exact Hall]).
  split; [|split; [reflexivity|exact Hall']].
  split; [apply make_heap_is_heap|]. split.
  - rewrite <- (make_heap_perm heap), Hmap. reflexivity.
  - eapply Forall_impl; [|exact Hall'].
    intros e. apply initial_entry_group_ok.
Qed.

Lemma kd_setup_progress addrs (irds : list (@dist rng)) pop w :
  let groups := Z.of_nat (List.length irds) in
  0 < groups <= addrs -> groups <= 2 ^ 30 ->
  groups <= Z.of_nat (List.length pop) ->
  exists st, kd_setup addrs irds pop w = Ok st.
Proof.
  intros groups Hg Hb Hpop. unfold kd_setup.
  rewrite to_int_small by (unfold fits_int, INT_MIN, INT_MAX; lia).
  fold groups.
  replace (groups =? 0) with false by (symmetry; apply Z.eqb_neq; lia).
  replace (0 <=? addrs) with true by (symmetry; apply Z.leb_le; lia).
  cbn [negb ensure bind].
  destruct (kd_init_progress (Z.to_nat addrs) 0 addrs irds pop [] w
              Hg Hb Hpop ltac:(lia) ltac:(lia)) as [[heap w1] Hk].
  fold groups in Hk. rewrite Hk. cbn [bind]. eauto.
Qed.

(** What one step of the grouped loop does to the heap. *)
Lemma kd_step_spec (irds : list (@dist rng)) pop (st st' : @kd_state rng) :
  is_heap group_tadr_cmp (k_heap st) ->
  kd_step irds pop st = Ok st' ->
  exists entry rest d pop_g,
    heappop (k_heap st) = Ok (entry, rest) /\
    Permutation (k_heap st) (entry :: rest) /\
    hd_error (k_heap st) = Some entry /\
    vec_at irds (gt_group entry) = Ok d /\
    vec_at pop (gt_group entry) = Ok pop_g /\
    let add_ird := clamped_ird pop_g (to_int (fst (d (k_rng st)))) in
    k_trace st' = k_trace st ++ [gt_addr entry] /\
    k_rng st' = snd (d (k_rng st)) /\
    is_heap group_tadr_cmp (k_heap st') /\
    Permutation (k_heap st')
      (mk_group_tadr (gt_ird entry + add_ird) (gt_addr entry)
                     (gt_group entry) :: rest).
Proof.
  intros Hh Hs. unfold kd_step in Hs.
  destruct (heappop (k_heap st)) as [[entry rest]|] eqn:Hpop; [|discriminate].
  cbn [bind] in Hs.
  destruct (vec_at irds (gt_group entry)) as [d|] eqn:Hd; [|discriminate].
  cbn [bind] in Hs. destruct (d (k_rng st)) as [x w1] eqn:Hx.
  destruct (vec_at pop (gt_group entry)) as [p|] eqn:Hp; [|discriminate].
  cbn [bind] in Hs. injection Hs as <-.
  destruct (heappop_inv _ _ _ Hh Hpop) as [Hperm [Hh' Hhd]].
  exists entry, rest, d, p. rewrite Hx. cbn [fst snd k_trace k_rng k_heap].
  repeat (split; [solve [auto]|]). split.
  - now apply heappush_entry_is_heap.
  - unfold heappush_group. symmetry. now apply heappush_entry_perm.
Qed.

Lemma kd_step_inv addrs (irds : list (@dist rng)) pop (st st' : @kd_state rng) :
  kd_inv addrs irds pop (k_heap st) ->
  kd_step irds pop st = Ok st' ->
  kd_inv addrs irds pop (k_heap st').
Proof.
  intros [Hh [Hp Hg]] Hs.
  destruct (kd_step_spec irds pop st st' Hh Hs)
    as [entry [rest [d [p [_ [Hperm [_ [Hd [Hpg H]]]]]]]]].
  cbv zeta in H. destruct H as [_ [_ [Hh' Hperm']]].
  split; [exact Hh'|]. split.
  - rewrite Hperm'. cbn [map gt_addr]. rewrite <- Hp, Hperm. reflexivity.
  - eapply Permutation_Forall; [symmetry; exact Hperm'|].
    pose proof (Permutation_Forall Hperm Hg) as Hg'.
    inversion Hg' as [|? ? He Hrest]; subst.
    constructor; [exact He|exact Hrest].
Qed.

Lemma kd_loop_inv (n : nat) :
  forall addrs (irds : list (@dist rng)) pop (st st' : @kd_state rng),
    kd_inv addrs irds pop (k_heap st) ->
    kd_loop n irds pop st = Ok st' ->
    kd_inv addrs irds pop (k_heap st').
Proof.
  induction n as [|n IH]; intros addrs irds pop st st' Hinv Hl;
    cbn [kd_loop] in Hl.
  - now injection Hl as <-.
  - destruct (kd_step irds pop st) as [st1|] eqn:Hs; [|discriminate].
    cbn [bind] in Hl. eapply IH; [|exact Hl].
    eapply kd_step_inv; eauto.
Qed.

Lemma kd_step_progress addrs (irds : list (@dist rng)) pop
      (st : @kd_state rng) :
  0 < addrs -> kd_inv addrs irds pop (k_heap st) ->
  exists st', kd_step irds pop st = Ok st'.
Proof.
  intros Hpos [Hh [Hp Hg]]. unfold kd_step.
  apply perm_map_length in Hp.
  destruct (k_heap st) as [|x v] eqn:E; [cbn in Hp; lia|].
  destruct (heappop_front x v Hh) as [v' [Hpop _]].
  rewrite Hpop. cbn [bind].
  inversion Hg as [|? ? [[d Hd] [p Hpg]] _]; subst.
  rewrite Hd. cbn [bind]. destruct (d (k_rng st)) as [y w1].
  rewrite Hpg. cbn [bind]. eauto.
Qed.

Lemma kd_loop_progress (n : nat) :
  forall addrs (irds : list (@dist rng)) pop (st : @kd_state rng),
    0 < addrs -> kd_inv addrs irds pop (k_heap st) ->
    exists st', kd_loop n irds pop st = Ok st' /\
                List.length (k_trace st') = (List.length (k_trace st) + n)%nat.
Proof.
  induction n as [|n IH]; intros addrs irds pop st Hpos Hinv; cbn [kd_loop].
  - exists st. split; [reflexivity|lia].
  - destruct (kd_step_progress addrs irds pop st Hpos Hinv) as [st1 Hs].
    rewrite Hs. cbn [bind].
    pose proof (kd_step_inv _ _ _ _ _ Hinv Hs) as Hinv1.
    destruct (IH addrs irds pop st1 Hpos Hinv1) as [st' [Hl Hlen]].
    exists st'. split; [exact Hl|].
    destruct (kd_step_spec irds pop st st1 (proj1 Hinv) Hs)
      as [entry [rest [d [p [_ [_ [_ [_ [_ H]]]]]]]]].
    cbv zeta in H. destruct H as [Htr _].
    rewrite Hlen, Htr, length_app. cbn [List.length]. lia.
Qed.

End GroupedProps.

(** ** The scheduling heap across a run *)

Section HeapAcrossRun.
Context {FO : FloatOps} {rng : Type} {SR : StdRandom rng}.
Context {SH : StdHeap tadr tadr_cmp}.
Context {SHG : StdHeap group_tadr group_tadr_cmp}.

(** C2.  In both scheduler modes the heap holds exactly one entry per
    address, [addrs] entries in all, after setup ([k = 0]) and after each
    of the generation steps ([k] steps done), on every run that gets that
    far; and the runs do get that far: a blended run whose samplers stay in
    range and a grouped run with [0 < groups <= addrs] complete any number
    of steps. *)
Theorem heap_holds_one_entry_per_address :
  (forall addrs p_irm (d_ird d_irm : @dist rng) w k st,
     gen_loop k addrs p_irm d_ird d_irm (gen_setup addrs d_ird w) = Ok st ->
     List.length (g_irds st) = Z.to_nat addrs /\
     Permutation (map addr (g_irds st)) (addresses addrs)) /\
  (forall addrs p_irm (d_ird d_irm : @dist rng) w k st,
     td_loop k addrs p_irm d_ird d_irm (gen_setup addrs d_ird w) = Ok st ->
     List.length (g_irds st) = Z.to_nat addrs /\
     Permutation (map addr (g_irds st)) (addresses addrs)) /\
  (forall addrs p_irm (d_ird d_irm : @dist rng) w k,
     0 < addrs ->
     (forall w', 0 <= fst (d_ird w') < addrs) ->
     (forall w', fst (d_irm w') < addrs) ->
     exists st,
       gen_loop k addrs p_irm d_ird d_irm (gen_setup addrs d_ird w) = Ok st) /\
  (forall addrs (irds : list (@dist rng)) pop w st0 k st,
     kd_setup addrs irds pop w = Ok st0 ->
     kd_loop k irds pop st0 = Ok st ->
     List.length (k_heap st) = Z.to_nat addrs /\
     Permutation (map gt_addr (k_heap st)) (addresses addrs)) /\
  (forall addrs (irds : list (@dist rng)) pop w k,
     0 < Z.of_nat (List.length irds) <= addrs ->
     Z.of_nat (List.length irds) <= 2 ^ 30 ->
     Z.of_nat (List.length irds) <= Z.of_nat (List.length pop) ->
     exists st0 st,
       kd_setup addrs irds pop w = Ok st0 /\
       kd_loop k irds pop st0 = Ok st).
Proof.
  assert (Hb : forall addrs p_irm (d_ird d_irm : @dist rng) w k st,
     gen_loop k addrs p_irm d_ird d_irm (gen_setup addrs d_ird w) = Ok st ->
     List.length (g_irds st) = Z.to_nat addrs /\
     Permutation (map addr (g_irds st)) (addresses addrs)).
  { intros addrs p_irm d_ird d_irm w k st Hl.
    destruct (gen_setup_inv addrs d_ird w) as [Hinv _].
    destruct (gen_loop_inv k _ _ _ _ _ _ Hinv Hl) as [_ Hp].
    split; [eapply perm_map_length; exact Hp|exact Hp]. }
  split; [exact Hb|]. split.
  { intros addrs p_irm d_ird d_irm w k st. rewrite td_loop_eq. apply Hb. }
  split.
  { intros addrs p_irm d_ird d_irm w k Hpos Hird Hirm.
    apply gen_loop_progress; auto. apply gen_setup_inv. }
  split.
  - intros addrs irds pop w st0 k st Hs Hl.
    destruct (kd_setup_inv _ _ _ _ _ Hs) as [Hinv _].
    destruct (kd_loop_inv k _ _ _ _ _ Hinv Hl) as [_ [Hp _]].
    split; [eapply perm_map_length; exact Hp|exact Hp].
  - intros addrs irds pop w k Hg Hb30 Hpop.
    destruct (kd_setup_progress addrs irds pop w Hg Hb30 Hpop) as [st0 Hs].
    destruct (kd_setup_inv _ _ _ _ _ Hs) as [Hinv _].
    destruct (kd_loop_progress k addrs irds pop st0 ltac:(lia) Hinv)
      as [st [Hl _]].
    eauto.
Qed.

(** C3.  With [p_irm = 1.0] every step takes the IRM branch: after any
    number of steps the heap is the heap that setup built, and the trace is
    the sequence of direct IRM draws, one per step.  The run completes
    whenever the IRM draws stay below [addrs], and the trace returned by
    [gen_addresses] and [td_gen] is that sequence of draws. *)
Theorem pure_irm_leaves_heap_untouched
        (addrs : Z) (d_ird d_irm : @dist rng) (w : rng) (k : nat) :
  let st0 := gen_setup addrs d_ird w in
  (forall st, gen_loop k addrs 1%Q d_ird d_irm st0 = Ok st ->
     g_irds st = g_irds st0 /\
     g_trace st = fst (irm_draws k d_irm (g_rng st0)) /\
     List.length (g_trace st) = k) /\
  (forall st, td_loop k addrs 1%Q d_ird d_irm st0 = Ok st ->
     g_irds st = g_irds st0 /\
     g_trace st = fst (irm_draws k d_irm (g_rng st0)) /\
     List.length (g_trace st) = k) /\
  ((forall w', fst (d_irm w') < addrs) ->
   exists st, gen_loop k addrs 1%Q d_ird d_irm st0 = Ok st /\
              td_loop k addrs 1%Q d_ird d_irm st0 = Ok st) /\
  (forall trace w',
     gen_addresses addrs (Z.of_nat k) 1%Q d_ird d_irm w = Ok (trace, w') ->
     trace = fst (irm_draws k d_irm (g_rng st0)) /\
     td_gen addrs (Z.of_nat k) 1%Q d_ird d_irm w = Ok (trace, w')).
Proof.
  assert (Hone : forall w', f64_ltb (fst (uniform_real_distribution w')) 1%Q
                            = true).
  { intros w'. destruct (uniform_real_range w') as [_ Hlt].
    unfold f64_ltb. destruct (Qle_bool 1 _) eqn:E; [|reflexivity].
    apply Qle_bool_iff in E. exfalso. exact (Qlt_not_le _ _ Hlt E). }
  assert (Hgen : forall n st st',
     gen_loop n addrs 1%Q d_ird d_irm st = Ok st' ->
     g_irds st' = g_irds st /\
     g_trace st' = g_trace st ++ fst (irm_draws n d_irm (g_rng st)) /\
     List.length (fst (irm_draws n d_irm (g_rng st))) = n).
  { induction n as [|n IH]; intros st st' Hl; cbn [gen_loop irm_draws] in *.
    - injection Hl as <-. cbn [fst]. now rewrite app_nil_r.
    - rewrite gen_step_irm in Hl by apply Hone. cbv zeta in Hl.
      destruct (uniform_real_distribution (g_rng st)) as [u w1].
      cbn [fst snd] in Hl. destruct (d_irm w1) as [a w2]. cbn [fst snd] in Hl.
      destruct (a <? addrs); [|discriminate]. cbn [bind] in Hl.
      apply IH in Hl. cbn [g_irds g_trace g_rng] in Hl.
      destruct (irm_draws n d_irm w2) as [rest w3]. cbn [fst] in *.
      destruct Hl as [H1 [H2 H3]]. rewrite <- app_assoc in H2.
      cbn [List.length]. auto. }
  assert (Hmain : forall st,
     gen_loop k addrs 1%Q d_ird d_irm (gen_setup addrs d_ird w) = Ok st ->
     g_irds st = g_irds (gen_setup addrs d_ird w) /\
     g_trace st = fst (irm_draws k d_irm (g_rng (gen_setup addrs d_ird w))) /\
     List.length (g_trace st) = k).
  { intros st Hl. apply Hgen in Hl. destruct Hl as [H1 [H2 H3]].
    rewrite (proj2 (gen_setup_inv addrs d_ird w)) in H2. cbn [app] in H2.
    rewrite H2. auto. }
  cbv zeta. split; [exact Hmain|]. split.
  { intros st. rewrite td_loop_eq. apply Hmain. }
  split.
  2:{ intros trace w' Hg. split; [|rewrite td_gen_eq; exact Hg].
      unfold gen_addresses in Hg. rewrite Nat2Z.id in Hg.
      destruct (gen_loop k addrs 1%Q d_ird d_irm (gen_setup addrs d_ird w))
        as [st|] eqn:Hl; [|discriminate].
      cbn [bind] in Hg. injection Hg as <- <-.
      exact (proj1 (proj2 (Hmain st eq_refl))). }
  intros Hirm.
  assert (Hp : forall n st, exists st',
     gen_loop n addrs 1%Q d_ird d_irm st = Ok st').
  { induction n as [|n IH]; intros st; cbn [gen_loop]; [eauto|].
    rewrite gen_step_irm by apply Hone. cbv zeta.
    replace (_ <? addrs) with true by (symmetry; apply Z.ltb_lt, Hirm).
    cbn [bind]. apply IH. }
  destruct (Hp k (gen_setup addrs d_ird w)) as [st Hst].
  exists st. split; [exact Hst|]. rewrite td_loop_eq. exact Hst.
Qed.

(** C7.  With [addresses = 4] and [length = 0] the loop runs zero times:
    [gen_addresses] and [td_gen] return the empty trace and no error. *)
Theorem zero_length_gives_empty_trace
        (p_irm : f64) (d_ird d_irm : @dist rng) (w : rng) :
  gen_addresses 4 0 p_irm d_ird d_irm w =
    Ok ([], g_rng (gen_setup 4 d_ird w)) /\
  td_gen 4 0 p_irm d_ird d_irm w = Ok ([], g_rng (gen_setup 4 d_ird w)) /\
  gen_loop (Z.to_nat 0) 4 p_irm d_ird d_irm (gen_setup 4 d_ird w) =
    Ok (gen_setup 4 d_ird w).
Proof.
  assert (H : gen_addresses 4 0 p_irm d_ird d_irm w =
              Ok ([], g_rng (gen_setup 4 d_ird w))).
  { unfold gen_addresses. cbn [Z.to_nat gen_loop bind].
    now rewrite (proj2 (gen_setup_inv 4 d_ird w)). }
  split; [exact H|]. split; [|reflexivity].
  rewrite td_gen_eq. exact H.
Qed.

End HeapAcrossRun.

Lemma heap_holds_one_entry_per_address_witness :
  exists st,
    gen_loop 3 4 (1 # 2)%Q (const_dist 1) (const_dist 2)
             (gen_setup 4 (const_dist 1) ([] : tape)) = Ok st /\
    List.length (g_irds st) = Z.to_nat 4.
Proof.
  destruct (@heap_holds_one_entry_per_address exact_ops tape tape_random
              tadr_heap group_tadr_heap) as [Hinv [_ [Hprog _]]].
  destruct (Hprog 4 (1 # 2)%Q (const_dist 1) (const_dist 2) [] 3%nat
              ltac:(lia) ltac:(intros; cbn; lia) ltac:(intros; cbn; lia))
    as [st Hst].
  exists st. split; [exact Hst|].
  exact (proj1 (Hinv _ _ _ _ _ _ _ Hst)).
Defined.

Lemma pure_irm_leaves_heap_untouched_witness :
  exists st,
    gen_loop 3 4 1%Q (const_dist 1) (const_dist 2)
             (gen_setup 4 (const_dist 1) ([] : tape)) = Ok st /\
    g_irds st = g_irds (gen_setup 4 (const_dist 1) ([] : tape)) /\
    g_trace st = [2; 2; 2].
Proof.
  destruct (@pure_irm_leaves_heap_untouched tape tape_random tadr_heap
              4 (const_dist 1) (const_dist 2) [] 3%nat)
    as [Hinv [_ [Hprog _]]].
  destruct (Hprog ltac:(intros; cbn; lia)) as [st [Hst _]].
  exists st. split; [exact Hst|].
  destruct (Hinv st Hst) as [H1 [H2 _]]. split; [exact H1|].
  rewrite H2. reflexivity.
Defined.

Section StepBehaviour.
Context {FO : FloatOps} {rng : Type} {SR : StdRandom rng}.
Context {SH : StdHeap tadr tadr_cmp}.
Context {SHG : StdHeap group_tadr group_tadr_cmp}.

(** C10.  A blended step that takes the schedule branch asserts
    [0 <= ird_sample < addrs] on the fresh IRD draw: outside that range the
    step aborts and nothing is rescheduled; inside it the front of the heap
    is emitted and rescheduled.  The grouped step has no such check: it
    succeeds on every heap that satisfies the invariant, whatever the
    draw. *)
Theorem schedule_branch_asserts_ird_range
        (addrs : Z) (p_irm : f64) (d_ird d_irm : @dist rng)
        (st : @gen_state rng) :
  f64_ltb (fst (uniform_real_distribution (g_rng st))) p_irm = false ->
  let ird_sample :=
    fst (d_ird (snd (uniform_real_distribution (g_rng st)))) in
  (ird_sample < 0 \/ addrs <= ird_sample ->
   gen_step addrs p_irm d_ird d_irm st = Err AssertionFailed /\
   td_step addrs p_irm d_ird d_irm st = Err AssertionFailed) /\
  (0 <= ird_sample < addrs -> irds_inv addrs (g_irds st) ->
   exists m rest st',
     heappop (g_irds st) = Ok (m, rest) /\
     gen_step addrs p_irm d_ird d_irm st = Ok st' /\
     td_step addrs p_irm d_ird d_irm st = Ok st' /\
     g_trace st' = g_trace st ++ [addr m] /\
     g_irds st' = heappush rest (ird m + ird_sample) (addr m)) /\
  (forall (irds : list (@dist rng)) pop (kst : @kd_state rng),
     0 < addrs -> kd_inv addrs irds pop (k_heap kst) ->
     exists kst', kd_step irds pop kst = Ok kst').
Proof.
  intros Hu ird_sample. split; [|split].
  - intros Hout.
    change (td_step addrs p_irm d_ird d_irm st)
      with (gen_step addrs p_irm d_ird d_irm st).
    rewrite gen_step_schedule by exact Hu.
    cbv zeta. fold ird_sample.
    replace ((0 <=? ird_sample) && (ird_sample <? addrs)) with false; auto.
    symmetry. apply andb_false_iff.
    destruct Hout; [left; apply Z.leb_gt|right; apply Z.ltb_ge]; lia.
  - intros Hin [Hh Hp].
    change (td_step addrs p_irm d_ird d_irm st)
      with (gen_step addrs p_irm d_ird d_irm st).
    rewrite gen_step_schedule by exact Hu.
    cbv zeta. fold ird_sample.
    replace ((0 <=? ird_sample) && (ird_sample <? addrs)) with true
      by (symmetry; apply andb_true_iff;
          split; [apply Z.leb_le|apply Z.ltb_lt]; lia).
    apply perm_map_length in Hp.
    destruct (g_irds st) as [|x v] eqn:E; [cbn in Hp; lia|].
    destruct (heappop_front x v Hh) as [v' [Hpop _]].
    rewrite Hpop. cbn [bind]. do 3 eexists. repeat split.
  - intros irds pop kst Hpos Hinv. eapply kd_step_progress; eauto.
Qed.

(** C6 (as amended).  Nothing validates [length] or [addrs] before the
    loop.  In blended mode a non-positive [length] makes the loop run zero
    times: [gen_addresses] and [td_gen] return the empty trace and no
    error, for every value of [addrs].  In grouped mode [length = 0]
    returns the empty trace whenever setup completes. *)
Theorem nonpositive_length_is_not_rejected :
  (forall addrs length p_irm (d_ird d_irm : @dist rng) w,
     length <= 0 ->
     gen_addresses addrs length p_irm d_ird d_irm w =
       Ok ([], g_rng (gen_setup addrs d_ird w)) /\
     td_gen addrs length p_irm d_ird d_irm w =
       Ok ([], g_rng (gen_setup addrs d_ird w))) /\
  (forall addrs (irds : list (@dist rng)) pop w st,
     kd_setup addrs irds pop w = Ok st ->
     kd_gen addrs 0 irds pop w = Ok ([], k_rng st)).
Proof.
  split.
  - intros addrs length p_irm d_ird d_irm w Hl.
    assert (H : gen_addresses addrs length p_irm d_ird d_irm w =
                Ok ([], g_rng (gen_setup addrs d_ird w))).
    { unfold gen_addresses. replace (Z.to_nat length) with 0%nat by lia.
      cbn [gen_loop bind].
      now rewrite (proj2 (gen_setup_inv addrs d_ird w)). }
    split; [exact H|]. rewrite td_gen_eq. exact H.
  - intros addrs irds pop w st Hs. unfold kd_gen. rewrite Hs.
    cbn [bind Z.leb Z.compare ensure Z.to_nat kd_loop].
    destruct (kd_setup_inv _ _ _ _ _ Hs) as [_ [Htr _]]. now rewrite Htr.
Qed.

End StepBehaviour.

Lemma schedule_branch_asserts_ird_range_witness :
  gen_step 4 0%Q (const_dist 7) (const_dist 0)
           (gen_setup 4 (const_dist 7) ([] : tape)) = Err AssertionFailed.
Proof.
  refine (proj1 (proj1 (@schedule_branch_asserts_ird_range exact_ops tape
            tape_random tadr_heap group_tadr_heap 4 0%Q (const_dist 7)
            (const_dist 0) (gen_setup 4 (const_dist 7) []) _) _)).
  - reflexivity.
  - right. cbn. lia.
Defined.

(** The preset "d" has five classes; with four addresses a draw of class 4
    on the schedule branch aborts the run. *)
Example preset_d_exceeds_four_addresses :
  exists d : @dist tape,
    parse_ird "d" = Ok d /\
    gen_addresses 4 1 0%Q d (const_dist 0) [0; 1; 2; 3; 0; 4]
      = Err AssertionFailed.
Proof. eexists. split; [reflexivity|]. vm_compute. reflexivity. Qed.

Lemma nonpositive_length_is_not_rejected_witness :
  gen_addresses 4 (-3) (1 # 2)%Q (const_dist 1) (const_dist 2) ([] : tape) =
    Ok ([], []).
Proof.
  refine (proj1 (proj1 (@nonpositive_length_is_not_rejected exact_ops tape
            tape_random tadr_heap group_tadr_heap) 4 (-3) (1 # 2)%Q
            (const_dist 1) (const_dist 2) [] _)).
  lia.
Defined.

(** Runs with a non-positive [length], and with a non-positive [addrs],
    are accepted: they return the empty trace instead of failing. *)
Lemma nonpositive_bounds_accepted :
  gen_addresses 4 0 (1 # 2)%Q (const_dist 1) (const_dist 2) ([] : tape) =
    Ok ([], []) /\
  td_gen 4 (-3) (1 # 2)%Q (const_dist 1) (const_dist 2) ([] : tape) =
    Ok ([], []) /\
  gen_addresses 0 0 (1 # 2)%Q (const_dist 1) (const_dist 2) ([] : tape) =
    Ok ([], []) /\
  kd_gen 4 0 [const_dist 1] [1%Q] ([] : tape) = Ok ([], []).
Proof. repeat split; vm_compute; reflexivity. Qed.

(** C4.  On the IRM branch the source asserts only [addr < addrs]: a draw
    of [-1] passes the assertion and is emitted into the trace, while a
    draw of [4 = addrs] aborts the run. *)
Theorem negative_irm_address_is_emitted :
  gen_addresses 4 1 1%Q (const_dist 0) (const_dist (-1)) ([] : tape) =
    Ok ([-1], []) /\
  td_gen 4 1 1%Q (const_dist 0) (const_dist (-1)) ([] : tape) =
    Ok ([-1], []) /\
  gen_addresses 4 1 1%Q (const_dist 0) (const_dist 4) ([] : tape) =
    Err AssertionFailed.
Proof. repeat split; vm_compute; reflexivity. Qed.

(** ** Rounding and the scan of [split] *)

Lemma llround_nearest (x : f64) :
  (Qabs (inject_Z (llround x) - x) <= 1 # 2)%Q.
Proof.
  apply Qabs_Qle_condition. unfold llround.
  destruct (Qle_bool 0 x).
  - pose proof (Qfloor_le (x + (1 # 2))) as H1.
    pose proof (Qlt_floor (x + (1 # 2))) as H2.
    rewrite inject_Z_plus in H2. change (inject_Z 1) with 1%Q in H2.
    split; lra.
  - pose proof (Qle_ceiling (x - (1 # 2))) as H1.
    pose proof (Qceiling_lt (x - (1 # 2))) as H2.
    unfold Z.sub in H2. rewrite inject_Z_plus in H2.
    change (inject_Z (- (1))) with (- (1))%Q in H2.
    split; lra.
Qed.

Lemma prefix_length (d s : string) :
  prefix d s = true -> (String.length d <= String.length s)%nat.
Proof.
  revert s. induction d as [|a d IH]; intros s Hp; cbn [String.length];
    [lia|].
  destruct s as [|b s]; cbn [prefix] in Hp; [discriminate|].
  destruct (ascii_dec a b); [|discriminate].
  apply IH in Hp. cbn [String.length]. lia.
Qed.

Lemma index_bounds (s : string) :
  forall n d m, index n d s = Some m ->
    (n <= m /\ m + String.length d <= String.length s)%nat.
Proof.
  induction s as [|b s IH]; intros n d m Hi; cbn [index] in Hi.
  - destruct n; [|discriminate]. destruct d; [|discriminate].
    injection Hi as <-. cbn [String.length]. lia.
  - destruct n as [|n].
    + destruct (prefix d (String b s)) eqn:Hp.
      * injection Hi as <-. apply prefix_length in Hp. lia.
      * destruct (index 0 d s) as [m'|] eqn:E; [|discriminate].
        injection Hi as <-. apply IH in E. cbn [String.length]. lia.
    + destruct (index n d s) as [m'|] eqn:E; [|discriminate].
      injection Hi as <-. apply IH in E. cbn [String.length]. lia.
Qed.

(** With a non-empty delimiter the while loop of [split] ends within the
    fuel that [split] provides: more fuel yields the same tokens. *)
Lemma split_loop_fuel (s d : string) :
  d <> EmptyString ->
  forall fuel1 fuel2 p res,
    (p <= String.length s)%nat ->
    (S (String.length s) - p <= fuel1)%nat ->
    (S (String.length s) - p <= fuel2)%nat ->
    split_loop fuel1 s d p res = split_loop fuel2 s d p res.
Proof.
  intros Hd.
  assert (Hlen : (1 <= String.length d)%nat)
    by (destruct d; [congruence|cbn [String.length]; lia]).
  induction fuel1 as [|f1 IH]; intros fuel2 p res Hp H1 H2; [lia|].
  destruct fuel2 as [|f2]; [lia|]. cbn [split_loop].
  destruct (index p d s) as [m|] eqn:E; [|reflexivity].
  apply index_bounds in E. apply IH; lia.
Qed.

Lemma split_enough_fuel (s d : string) (fuel : nat) :
  d <> EmptyString -> (S (String.length s) <= fuel)%nat ->
  split_loop fuel s d 0 [] = split s d.
Proof.
  intros Hd Hf. unfold split. apply split_loop_fuel; auto; lia.
Qed.

Lemma split_loop_nonempty (fuel : nat) :
  forall s d p res, res <> [] \/ fuel <> 0%nat ->
    split_loop fuel s d p res <> [].
Proof.
  induction fuel as [|f IH]; intros s d p res Hne; cbn [split_loop].
  - destruct Hne; [assumption|congruence].
  - destruct (index p d s).
    + apply IH. left. now destruct res.
    + now destruct res.
Qed.

Lemma split_nonempty (s d : string) : split s d <> [].
Proof. unfold split. apply split_loop_nonempty. now right. Qed.

Example split_ex1 : split "2,8" "," = ["2"; "8"]%string.
Proof. reflexivity. Qed.

Example split_ex2 : split "zipf:1.2,20" ":" = ["zipf"; "1.2,20"]%string.
Proof. reflexivity. Qed.

Example split_ex3 :
  split ",a,," "," = [EmptyString; "a"%string; EmptyString; EmptyString].
Proof. reflexivity. Qed.

Example split_ex4 : split "fgen:10:0.1:3,5" ":" =
                    ["fgen"; "10"; "0.1"; "3,5"]%string.
Proof. reflexivity. Qed.

Lemma mapM_length {A B} (f : A -> result B) (l : list A) :
  forall l', mapM f l = Ok l' -> List.length l' = List.length l.
Proof.
  induction l as [|x l IH]; intros l' Hm; cbn [mapM] in Hm.
  - now injection Hm as <-.
  - destruct (f x) as [y|]; [|discriminate]. cbn [bind] in Hm.
    destruct (mapM f l) as [ys|]; [|discriminate]. cbn [bind] in Hm.
    injection Hm as <-. cbn [List.length]. f_equal. now apply IH.
Qed.

(** ** Samplers built by [parse_ird] *)

(** Peel the first successful call off a chain of binds. *)
Ltac bind_ok H :=
  match type of H with
  | bind ?r _ = Ok _ =>
    let E := fresh "E" in
    destruct r eqn:E; [cbn [bind] in H|discriminate H]
  end.

Section IrdSamplers.
Context {FO : FloatOps} {rng : Type} {SR : StdRandom rng}.

Lemma normalise_vec_length (ws : list f64) :
  List.length (normalise_vec ws) = List.length ws.
Proof. unfold normalise_vec. apply length_map. Qed.

Lemma vec_update_length {A} (v : list A) :
  forall i x v', vec_update v i x = Some v' -> List.length v' = List.length v.
Proof.
  induction v as [|y v IH]; intros i x v' Hu; cbn [vec_update] in Hu;
    [discriminate|].
  destruct i as [|i].
  - now injection Hu as <-.
  - destruct (vec_update v i x) as [v1|] eqn:E; [|discriminate].
    cbn [option_map] in Hu. injection Hu as <-. cbn [List.length].
    f_equal. eapply IH; eauto.
Qed.

Lemma set_spikes_length (spikes : list Z) :
  forall ws x ws', set_spikes ws spikes x = Ok ws' ->
    List.length ws' = List.length ws.
Proof.
  induction spikes as [|s spikes IH]; intros ws x ws' Hs;
    cbn [set_spikes] in Hs.
  - now injection Hs as <-.
  - bind_ok Hs. apply IH in Hs. rewrite Hs.
    unfold vec_set in E. destruct (s <? 0); [discriminate|].
    destruct (vec_update ws (Z.to_nat s) x) as [v1|] eqn:Ev; [|discriminate].
    cbn [of_option] in E. injection E as <-.
    eapply vec_update_length; eauto.
Qed.

(** A sampler built by [irdgen] returns a class index below [k]. *)
Lemma irdgen_range (k : Z) (epsilon : f64) (spikes : list Z) (d : @dist rng) :
  irdgen k epsilon spikes = Ok d ->
  forall w, 0 <= fst (d w) < Z.max 1 k.
Proof.
  unfold irdgen. intros Hi w. bind_ok Hi. injection Hi as <-.
  apply set_spikes_length in E. rewrite repeat_length in E.
  pose proof (discrete_range (normalise_vec a) w) as Hr.
  rewrite normalise_vec_length, E in Hr. lia.
Qed.


(** Every popularity that [main] of kd-tracegen.cc hands to [kd_gen] is a
    draw of the popularity sampler divided by the scale 10000. *)
Lemma draw_pop_entries (n : nat) :
  forall (irm_dist : @dist rng) pop w,
    let drawn p :=
      exists w', p = f64_div (inject_Z (fst (irm_dist w'))) scale in
    Forall drawn pop ->
    Forall drawn (fst (draw_pop n irm_dist pop w)) /\
    List.length (fst (draw_pop n irm_dist pop w)) = (List.length pop + n)%nat.
Proof.
  induction n as [|n IH]; intros irm_dist pop w drawn Hpop; cbn [draw_pop].
  - cbn [fst]. split; [exact Hpop|lia].
  - destruct (irm_dist w) as [sample w1] eqn:E.
    destruct (IH irm_dist (pop ++ [f64_div (inject_Z sample) scale]) w1)
      as [H1 H2].
    + apply Forall_app. split; [exact Hpop|].
      constructor; [|constructor]. exists w. now rewrite E.
    + split; [exact H1|]. rewrite H2, length_app. cbn [List.length]. lia.
Qed.

End IrdSamplers.

(** ** The draws of grouped setup *)



Section GroupedSetup.
Context {FO : FloatOps} {rng : Type} {SR : StdRandom rng}.
Context {SHG : StdHeap group_tadr group_tadr_cmp}.


End GroupedSetup.

(** ** Grouped increments, group assignment and popularity mode *)

Section GroupedBehaviour.
Context {FO : FloatOps} {rng : Type} {SR : StdRandom rng}.
Context {SHG : StdHeap group_tadr group_tadr_cmp}.


(** C9.  [kd_gen] divides by [group_size = addrs / groups]: with an empty
    [irds], or with more groups than addresses, the run ends in a division
    by zero.  With [0 < groups <= addrs] every address receives the group
    [a / (addrs / groups)] cut off at [groups - 1], which lies in
    [0, groups), and the run completes.  (The bounds on [groups] keep the
    count and the quotient inside [int].) *)
Theorem grouped_needs_groups_at_most_addrs
        (addrs length : Z) (irds : list (@dist rng)) (pop : list f64)
        (w : rng) :
  let groups := Z.of_nat (List.length irds) in
  (groups = 0 -> kd_gen addrs length irds pop w = Err Undefined) /\
  (0 < addrs < groups -> groups <= INT_MAX ->
   Z.quot addrs groups = 0 /\
   group_of groups (Z.quot addrs groups) 0 = Err Undefined /\
   kd_gen addrs length irds pop w = Err Undefined) /\
  (0 < groups <= addrs -> groups <= 2 ^ 30 ->
   (forall a, 0 <= a < addrs ->
      group_of groups (Z.quot addrs groups) a =
        Ok (Z.min (a / (addrs / groups)) (groups - 1)) /\
      0 <= Z.min (a / (addrs / groups)) (groups - 1) < groups) /\
   (groups <= Z.of_nat (List.length pop) -> 0 <= length ->
    exists trace w',
      kd_gen addrs length irds pop w = Ok (trace, w') /\
      List.length trace = Z.to_nat length)).
Proof.
  intros groups. split; [|split].
  - intros H0. unfold kd_gen, kd_setup. fold groups. rewrite H0.
    reflexivity.
  - intros Ha Hb.
    assert (Hq : Z.quot addrs groups = 0) by (apply Z.quot_small; lia).
    split; [exact Hq|]. split; [rewrite Hq; reflexivity|].
    unfold kd_gen, kd_setup. fold groups.
    rewrite to_int_small by (unfold fits_int, INT_MIN, INT_MAX in *; lia).
    replace (groups =? 0) with false by (symmetry; apply Z.eqb_neq; lia).
    replace (0 <=? addrs) with true by (symmetry; apply Z.leb_le; lia).
    cbn [negb ensure bind]. rewrite Hq.
    destruct (Z.to_nat addrs) as [|n] eqn:En; [lia|]. reflexivity.
  - intros Hg Hb. split.
    + intros a Ha. now apply group_of_in_range.
    + intros Hpop Hlen.
      destruct (kd_setup_progress addrs irds pop w Hg Hb Hpop) as [st0 Hs].
      destruct (kd_setup_inv _ _ _ _ _ Hs) as [Hinv [Htr _]].
      destruct (kd_loop_progress (Z.to_nat length) addrs irds pop st0
                  ltac:(lia) Hinv) as [st [Hl Hn]].
      exists (k_trace st), (k_rng st). unfold kd_gen. rewrite Hs.
      replace (0 <=? length) with true by (symmetry; apply Z.leb_le; lia).
      cbn [bind ensure]. rewrite Hl. cbn [bind]. split; [reflexivity|].
      rewrite Hn, Htr. reflexivity.
Qed.

(** C8.  A spec without a colon, built in popularity mode, yields a
    sampler whose every draw is [llround(w_i * 10000)], where [w] is the
    weight vector after [normalise_vec] and [i] is the index drawn by the
    discrete distribution over [w]: the nearest integer to the selected
    weight in fixed point with scale 10000. *)
Theorem popularity_mode_returns_scaled_weight
        (dist_str : string) (max : Z) (raw : list f64) :
  index 0 ":" dist_str = None ->
  mapM (fun t => of_option (stod t) Exception) (split dist_str ",") = Ok raw ->
  let vals := normalise_vec raw in
  exists d : @dist rng,
    parse_irm dist_str max true = Ok d /\
    List.length vals = List.length (split dist_str ",") /\
    forall w,
      let i := fst (discrete_distribution vals w) in
      let v := nth (Z.to_nat i) vals 0%Q in
      0 <= i < Z.of_nat (List.length vals) /\
      d w = (llround (f64_mul v (10000 # 1)%Q),
             snd (discrete_distribution vals w)) /\
      (Qabs (inject_Z (fst (d w)) - f64_mul v (10000 # 1)%Q) <= 1 # 2)%Q.
Proof.
  intros Hcolon Hraw vals.
  assert (Hlen : List.length vals = List.length (split dist_str ",")).
  { unfold vals. rewrite normalise_vec_length. eapply mapM_length; eauto. }
  exists (popularity_sampler vals). split.
  { unfold parse_irm. rewrite Hcolon, Hraw. reflexivity. }
  split; [exact Hlen|]. intros w. cbv zeta.
  pose proof (discrete_range vals w) as Hr.
  assert (Hne : List.length (split dist_str ",") <> 0%nat).
  { pose proof (split_nonempty dist_str ",") as Hs.
    destruct (split dist_str ","); [congruence|discriminate]. }
  unfold popularity_sampler, scale.
  destruct (discrete_distribution vals w) as [i w1]. cbn [fst snd] in *.
  split; [lia|]. split; [reflexivity|]. apply llround_nearest.
Qed.

End GroupedBehaviour.


(** With [pop = 2^-70] the scaled value [2^70] does not fit [i64]:
    [std::llround] returns the implementation's value ([LLONG_MIN] in the
    reference instance), the clamp makes it 0, and address 0 is emitted
    first. *)
Example grouped_increment_outside_i64 :
  clamped_ird (1 # 2 ^ 70)%Q 1 = 0 /\
  kd_gen 2 1 [const_dist 1; const_dist 5] [(1 # 2 ^ 70)%Q; 0%Q] ([] : tape)
    = Ok ([0], []).
Proof. split; vm_compute; reflexivity. Qed.

Lemma grouped_needs_groups_at_most_addrs_witness :
  kd_gen 2 5 [const_dist 1; const_dist 1; const_dist 1]
         [1%Q; 1%Q; 1%Q] ([] : tape) = Err Undefined.
Proof.
  destruct (grouped_needs_groups_at_most_addrs (rng := tape)
              2 5 [const_dist 1; const_dist 1; const_dist 1]
              [1%Q; 1%Q; 1%Q] []) as [_ [Hdiv _]].
  apply Hdiv.
  - cbn. lia.
  - cbn. unfold INT_MAX. lia.
Defined.

Lemma popularity_mode_returns_scaled_weight_witness :
  exists d : @dist tape,
    parse_irm "2,8" 10 true = Ok d /\
    d [0] = (2000, []) /\ d [1] = (8000, []).
Proof.
  destruct (@popularity_mode_returns_scaled_weight exact_ops tape tape_random
              "2,8" 10 [(2 # 1)%Q; (8 # 1)%Q] eq_refl eq_refl)
    as [d [Hd [_ Hw]]].
  exists d. split; [exact Hd|].
  split; [exact (proj1 (proj2 (Hw [0])))|exact (proj1 (proj2 (Hw [1])))].
Defined.

Example grouped_example_ten_addresses_two_groups :
  map (fun a => group_of 2 (Z.quot 10 2) a) [0; 4; 5; 9] =
  [Ok 0; Ok 0; Ok 1; Ok 1].
Proof. reflexivity. Qed.

(** * Further properties of the code *)

(** ** [split] *)

Lemma substring_app (s : string) :
  forall a n k,
    (substring a n s ++ substring (a + n) k s)%string = substring a (n + k) s.
Proof.
  induction s as [|c s IH]; intros a n k.
  - destruct a, n, k; reflexivity.
  - destruct a as [|a].
    + destruct n as [|n]; cbn [Nat.add substring append]; [reflexivity|].
      f_equal. apply (IH 0%nat n k).
    + cbn [Nat.add substring]. apply IH.
Qed.

Lemma substring_all (s : string) : substring 0 (String.length s) s = s.
Proof.
  induction s as [|c s IH]; cbn [String.length substring]; [reflexivity|].
  now rewrite IH.
Qed.

Lemma split_loop_acc (fuel : nat) :
  forall s d p res,
    split_loop fuel s d p res = res ++ split_loop fuel s d p [].
Proof.
  induction fuel as [|f IH]; intros s d p res; cbn [split_loop].
  - now rewrite app_nil_r.
  - destruct (index p d s) as [m|]; [|reflexivity].
    rewrite (IH s d _ (res ++ _)), (IH s d _ ([] ++ _)).
    now rewrite <- app_assoc.
Qed.

Lemma split_loop_concat (s d : string) :
  d <> EmptyString ->
  forall fuel p,
    (p <= String.length s)%nat ->
    (S (String.length s) - p <= fuel)%nat ->
    concat d (split_loop fuel s d p []) =
    substring p (String.length s - p) s.
Proof.
  intros Hd.
  assert (Hlen : (1 <= String.length d)%nat)
    by (destruct d; [congruence|cbn [String.length]; lia]).
  induction fuel as [|f IH]; intros p Hp Hf; [lia|]. cbn [split_loop].
  destruct (index p d s) as [m|] eqn:E; [|reflexivity].
  pose proof (index_correct1 _ _ _ _ E) as Hsub.
  apply index_bounds in E. cbn [app].
  rewrite split_loop_acc. cbn [app].
  assert (Hne : split_loop f s d (m + String.length d) [] <> [])
    by (apply split_loop_nonempty; right; lia).
  specialize (IH (m + String.length d)%nat ltac:(lia) ltac:(lia)).
  destruct (split_loop f s d (m + String.length d) []) as [|r rs] eqn:Er;
    [congruence|].
  change (concat d (substring p (m - p) s :: r :: rs))
    with (substring p (m - p) s ++ d ++ concat d (r :: rs))%string.
  rewrite IH. rewrite <- Hsub at 1.
  rewrite substring_app.
  replace m with (p + (m - p))%nat at 2 by lia.
  rewrite substring_app. f_equal. lia.
Qed.

(** X1.  Joining the tokens of [split s delimiter] with the delimiter gives
    back [s], for every non-empty delimiter. *)
Theorem split_concat_roundtrip (s delimiter : string) :
  delimiter <> EmptyString ->
  concat delimiter (split s delimiter) = s.
Proof.
  intros Hd. unfold split.
  rewrite split_loop_concat by (auto; lia).
  rewrite Nat.sub_0_r. apply substring_all.
Qed.

Lemma split_concat_roundtrip_witness :
  concat "," (split "0.5,,3" ",") = "0.5,,3"%string.
Proof.
  apply split_concat_roundtrip. discriminate.
Defined.

(** X2.  [split] never returns an empty vector, and a string that does not
    contain the delimiter comes back whole as the only token. *)
Theorem split_without_delimiter (s delimiter : string) :
  split s delimiter <> [] /\
  (index 0 delimiter s = None -> split s delimiter = [s]).
Proof.
  split; [apply split_nonempty|].
  intros Hi. unfold split. cbn [split_loop]. rewrite Hi. cbn [app].
  now rewrite Nat.sub_0_r, substring_all.
Qed.

Lemma split_without_delimiter_witness : split "zzz" ":" = ["zzz"%string].
Proof.
  apply (proj2 (split_without_delimiter "zzz" ":")). reflexivity.
Defined.

(** ** The sampler builders outside their domain *)

Section BuilderDomain.
Context {FO : FloatOps} {rng : Type} {SR : StdRandom rng}.
Context {SH : StdHeap tadr tadr_cmp}.

Lemma get_intervals_outside (classes max : Z) :
  ~ 0 < classes <= max -> get_intervals classes max = Err AssertionFailed.
Proof.
  intros Hn. unfold get_intervals.
  replace ((0 <? classes) && (0 <? max) && (classes <=? max)) with false;
    [reflexivity|].
  symmetry. destruct (0 <? classes) eqn:E1; [|reflexivity].
  destruct (0 <? max) eqn:E2; [|reflexivity].
  apply Z.ltb_lt in E1. cbn [andb]. apply Z.leb_gt. lia.
Qed.

(** X3.  [get_intervals], [zipf_dist] and [pareto_dist] build a sampler
    exactly when their assertions hold, that is when [0 < classes <= max]
    and the real parameters are positive; otherwise the build aborts on an
    assertion.  In particular a zipf or pareto spec with more classes than
    addresses never yields a sampler. *)
Theorem interval_builders_domain (classes max : Z) :
  (is_ok (get_intervals classes max) = true <-> 0 < classes <= max) /\
  (forall alpha,
     (f64_ltb 0%Q alpha = true /\ 0 < classes <= max ->
      is_ok (@zipf_dist FO rng SR alpha classes max) = true) /\
     (~ (f64_ltb 0%Q alpha = true /\ 0 < classes <= max) ->
      @zipf_dist FO rng SR alpha classes max = Err AssertionFailed)) /\
  (forall xm alpha,
     (f64_ltb 0%Q xm = true /\ f64_ltb 0%Q alpha = true /\
      0 < classes <= max ->
      is_ok (@pareto_dist FO rng SR xm alpha classes max) = true) /\
     (~ (f64_ltb 0%Q xm = true /\ f64_ltb 0%Q alpha = true /\
         0 < classes <= max) ->
      @pareto_dist FO rng SR xm alpha classes max = Err AssertionFailed)).
Proof.
  assert (Hdec : 0 < classes <= max \/ ~ 0 < classes <= max) by lia.
  split; [|split].
  - split.
    + intros Hok. destruct Hdec as [H|H]; [exact H|].
      rewrite get_intervals_outside in Hok by exact H. discriminate.
    + intros H. now rewrite get_intervals_ok.
  - intros alpha. split.
    + intros [Ha Hc]. unfold zipf_dist. rewrite Ha.
      replace (0 <? classes) with true by (symmetry; apply Z.ltb_lt; lia).
      cbn [andb ensure bind]. rewrite get_intervals_ok by exact Hc.
      cbn [bind]. rewrite zipf_weights_length, length_map, length_seq.
      now rewrite Nat.eqb_refl.
    + intros Hn. unfold zipf_dist.
      destruct (f64_ltb 0%Q alpha); [|reflexivity].
      destruct (0 <? classes) eqn:E; [|reflexivity].
      cbn [andb ensure bind]. rewrite get_intervals_outside; [reflexivity|].
      intros Hc. apply Hn. now split.
  - intros xm alpha. split.
    + intros [Hx [Ha Hc]]. unfold pareto_dist. rewrite Hx, Ha.
      replace (0 <? classes) with true by (symmetry; apply Z.ltb_lt; lia).
      cbn [andb ensure bind]. rewrite get_intervals_ok by exact Hc.
      cbn [bind]. rewrite pareto_weights_length, length_map, length_seq.
      now rewrite Nat.eqb_refl.
    + intros Hn. unfold pareto_dist.
      destruct (f64_ltb 0%Q xm); [|reflexivity].
      destruct (f64_ltb 0%Q alpha); [|reflexivity].
      destruct (0 <? classes) eqn:E; [|reflexivity].
      cbn [andb ensure bind]. rewrite get_intervals_outside; [reflexivity|].
      intros Hc. apply Hn. now repeat split.
Qed.

Lemma f64_ltb_false (x y : f64) : f64_ltb x y = false -> (y <= x)%Q.
Proof.
  unfold f64_ltb. intros H. apply negb_false_iff in H.
  now apply Qle_bool_iff.
Qed.

Lemma f64_ltb_true (x y : f64) : f64_ltb x y = true -> (x < y)%Q.
Proof.
  unfold f64_ltb. intros H. apply negb_true_iff in H.
  apply Qnot_le_lt. intros Hle. apply Qle_bool_iff in Hle. congruence.
Qed.

Lemma f64_ltb_lt (x y : f64) : (x < y)%Q -> f64_ltb x y = true.
Proof.
  intros Hlt. destruct (f64_ltb x y) eqn:E; [reflexivity|].
  apply f64_ltb_false in E. exfalso. exact (Qlt_not_le _ _ Hlt E).
Qed.

Lemma llround_between (x : f64) (lo hi : Z) :
  (inject_Z lo <= x)%Q -> (x <= inject_Z hi)%Q -> lo <= llround x <= hi.
Proof.
  intros Hlo Hhi.
  pose proof (llround_nearest x) as Hn. apply Qabs_Qle_condition in Hn.
  split.
  - destruct (Z_le_gt_dec lo (llround x)) as [H|H]; [exact H|exfalso].
    assert (Hq : (inject_Z (llround x + 1) <= inject_Z lo)%Q)
      by (rewrite <- Zle_Qle; lia).
    rewrite inject_Z_plus in Hq. change (inject_Z 1) with 1%Q in Hq. lra.
  - destruct (Z_le_gt_dec (llround x) hi) as [H|H]; [exact H|exfalso].
    assert (Hq : (inject_Z (hi + 1) <= inject_Z (llround x))%Q)
      by (rewrite <- Zle_Qle; lia).
    rewrite inject_Z_plus in Hq. change (inject_Z 1) with 1%Q in Hq. lra.
Qed.

Lemma normal_dist_clamps (mean stddev : f64) (max : Z) (w : rng) :
  0 <= max ->
  0 <= fst (normal_dist mean stddev max w) <= max /\
  ((inject_Z max < fst (normal_distribution mean stddev w))%Q ->
   fst (normal_dist mean stddev max w) = max).
Proof.
  intros Hmax. unfold normal_dist.
  destruct (normal_distribution mean stddev w) as [sample w1]. cbn [fst].
  destruct (f64_ltb sample 0%Q) eqn:E0.
  - cbn [fst]. split; [lia|]. intros Hgt. apply f64_ltb_true in E0.
    assert (inject_Z 0 <= inject_Z max)%Q by (now rewrite <- Zle_Qle).
    change (inject_Z 0) with 0%Q in *. lra.
  - destruct (f64_ltb (inject_Z max) sample) eqn:E1; cbn [fst].
    + split; [lia|reflexivity].
    + apply f64_ltb_false in E0, E1.
      split; [now apply llround_between|].
      intros Hgt. exfalso. exact (Qlt_not_le _ _ Hgt E1).
Qed.

(** X4.  For [0 <= max] every draw of [normal_dist] lies in [0, max], both
    ends included: a sample above [max] is returned as [max] itself. *)
Theorem normal_dist_range (mean stddev : f64) (max : Z) (w : rng) :
  0 <= max ->
  0 <= fst (normal_dist mean stddev max w) <= max /\
  ((inject_Z max < fst (normal_distribution mean stddev w))%Q ->
   fst (normal_dist mean stddev max w) = max).
Proof. apply normal_dist_clamps. Qed.

(** X5.  A normal IRM sampler is built with [max = addrs], so it can return
    [addrs] itself: when the normal sample exceeds [addrs] on the IRM branch
    the assertion [addr < addrs] fails and the step aborts. *)
Theorem normal_irm_above_range_aborts
        (addrs : Z) (p_irm mean stddev : f64) (d_ird : @dist rng)
        (st : @gen_state rng) :
  0 <= addrs ->
  f64_ltb (fst (uniform_real_distribution (g_rng st))) p_irm = true ->
  (inject_Z addrs <
   fst (normal_distribution mean stddev
          (snd (uniform_real_distribution (g_rng st)))))%Q ->
  gen_step addrs p_irm d_ird (normal_dist mean stddev addrs) st =
    Err AssertionFailed /\
  td_step addrs p_irm d_ird (normal_dist mean stddev addrs) st =
    Err AssertionFailed.
Proof.
  intros Ha Hu Hgt.
  assert (H : gen_step addrs p_irm d_ird (normal_dist mean stddev addrs) st =
              Err AssertionFailed).
  { rewrite gen_step_irm by exact Hu. cbv zeta.
    rewrite (proj2 (normal_dist_clamps mean stddev addrs _ Ha) Hgt).
    now rewrite Z.ltb_irrefl. }
  split; [exact H|]. exact H.
Qed.

(** X6.  For [0 < max] every draw of [uniform_dist max] lies in [0, max);
    with a uniform IRM sampler over the footprint the IRM branch never
    aborts: it emits that draw and leaves the heap as it is. *)
Theorem uniform_irm_never_aborts
        (addrs : Z) (p_irm : f64) (d_ird : @dist rng) (st : @gen_state rng) :
  0 < addrs ->
  (forall w, 0 <= fst (uniform_dist addrs w) < addrs) /\
  (f64_ltb (fst (uniform_real_distribution (g_rng st))) p_irm = true ->
   exists a w',
     0 <= a < addrs /\
     gen_step addrs p_irm d_ird (uniform_dist addrs) st =
       Ok (mk_gen_state (g_irds st) (g_trace st ++ [a]) w')).
Proof.
  intros Ha.
  assert (Hr : forall w, 0 <= fst (@uniform_dist rng SR addrs w) < addrs).
  { intros w. unfold uniform_dist.
    pose proof (uniform_int_range 0 (addrs - 1) w ltac:(lia)). lia. }
  split; [exact Hr|]. intros Hu.
  rewrite gen_step_irm by exact Hu. cbv zeta.
  set (w1 := snd (uniform_real_distribution (g_rng st))).
  specialize (Hr w1).
  replace (fst (uniform_dist addrs w1) <? addrs) with true
    by (symmetry; apply Z.ltb_lt; lia).
  eauto.
Qed.

End BuilderDomain.

Lemma interval_builders_domain_witness :
  @zipf_dist exact_ops tape tape_random (12 # 10)%Q 20 10 =
  Err AssertionFailed.
Proof.
  apply (proj2 (proj1 (proj2
           (@interval_builders_domain exact_ops tape tape_random 20 10))
           (12 # 10)%Q)).
  intros [_ H]. lia.
Defined.

Lemma normal_dist_range_witness :
  0 <= fst (normal_dist (2 # 1)%Q (1 # 1)%Q 4 ([7] : tape)) <= 4.
Proof.
  apply (@normal_dist_range tape tape_random (2 # 1)%Q (1 # 1)%Q 4 [7]).
  lia.
Defined.

Lemma normal_irm_above_range_aborts_witness :
  gen_step 4 1%Q (const_dist 0) (normal_dist (2 # 1)%Q (1 # 1)%Q 4)
           (mk_gen_state [] [] ([0; 7] : tape)) = Err AssertionFailed.
Proof.
  refine (proj1 (@normal_irm_above_range_aborts tape tape_random tadr_heap
            4 1%Q (2 # 1)%Q (1 # 1)%Q (const_dist 0)
            (mk_gen_state [] [] [0; 7]) _ _ _)).
  - lia.
  - reflexivity.
  - reflexivity.
Defined.

Lemma uniform_irm_never_aborts_witness :
  0 <= fst (uniform_dist 4 ([7] : tape)) < 4.
Proof.
  apply (proj1 (@uniform_irm_never_aborts tape tape_random tadr_heap 4 1%Q
                  (const_dist 0) (mk_gen_state [] [] []) ltac:(lia))).
Defined.

(** ** IRD builders and request sizes: accepted and rejected inputs *)

Section ParserBehaviour.
Context {FO : FloatOps} {rng : Type} {SR : StdRandom rng}.

Lemma vec_set_ok {A} (v : list A) (i : Z) (x : A) :
  0 <= i < Z.of_nat (List.length v) ->
  exists v', vec_set v i x = Ok v' /\ List.length v' = List.length v.
Proof.
  intros Hi. unfold vec_set.
  replace (i <? 0) with false by (symmetry; apply Z.ltb_ge; lia).
  assert (Hn : (Z.to_nat i < List.length v)%nat) by lia.
  revert Hn. generalize (Z.to_nat i). clear Hi i.
  induction v as [|y v IH]; intros n Hn; cbn [List.length] in Hn; [lia|].
  destruct n as [|n]; cbn [vec_update].
  - eexists. split; reflexivity.
  - destruct (IH n ltac:(lia)) as [v' [Hv Hl]].
    destruct (vec_update v n x) as [v1|]; [|discriminate].
    cbn [of_option] in Hv. injection Hv as ->.
    cbn [option_map of_option]. eexists. split; [reflexivity|].
    cbn [List.length]. now rewrite Hl.
Qed.

Lemma vec_set_out_of_range {A} (v : list A) (i : Z) (x : A) :
  ~ 0 <= i < Z.of_nat (List.length v) -> vec_set v i x = Err Undefined.
Proof.
  intros Hi. unfold vec_set. destruct (i <? 0) eqn:E; [reflexivity|].
  apply Z.ltb_ge in E.
  assert (Hn : (List.length v <= Z.to_nat i)%nat) by lia.
  revert Hn. generalize (Z.to_nat i). clear Hi E i.
  induction v as [|y v IH]; intros n Hn; cbn [vec_update]; [reflexivity|].
  cbn [List.length] in Hn. destruct n as [|n]; [lia|].
  specialize (IH n ltac:(lia)).
  destruct (vec_update v n x); [discriminate|reflexivity].
Qed.

Lemma set_spikes_in_range (spikes : list Z) :
  forall ws x,
    Forall (fun s => 0 <= s < Z.of_nat (List.length ws)) spikes ->
    exists ws', set_spikes ws spikes x = Ok ws'.
Proof.
  induction spikes as [|s spikes IH]; intros ws x Hall; cbn [set_spikes].
  - eauto.
  - inversion Hall as [|? ? Hs Hrest]; subst.
    destruct (vec_set_ok ws s x Hs) as [ws1 [Hv Hl]].
    rewrite Hv. cbn [bind]. apply IH. now rewrite Hl.
Qed.

Lemma set_spikes_out_of_range (spikes : list Z) :
  forall ws x,
    ~ Forall (fun s => 0 <= s < Z.of_nat (List.length ws)) spikes ->
    set_spikes ws spikes x = Err Undefined.
Proof.
  induction spikes as [|s spikes IH]; intros ws x Hn; cbn [set_spikes].
  - exfalso. apply Hn. constructor.
  - assert (Hd : 0 <= s < Z.of_nat (List.length ws) \/
                 ~ 0 <= s < Z.of_nat (List.length ws)) by lia.
    destruct Hd as [Hs|Hs].
    + destruct (vec_set_ok ws s x Hs) as [ws1 [Hv Hl]].
      rewrite Hv. cbn [bind]. apply IH. rewrite Hl.
      intros Hrest. apply Hn. now constructor.
    + now rewrite vec_set_out_of_range.
Qed.

(** X7.  [irdgen k epsilon spikes] builds a sampler exactly when every
    spike index lies in [0, k): an index outside overwrites past the weight
    vector.  Every draw of the sampler it builds is a class index below
    [k] (and 0 when there is no class). *)
Theorem irdgen_spikes_in_range (k : Z) (epsilon : f64) (spikes : list Z) :
  (Forall (fun s => 0 <= s < k) spikes ->
   exists d : @dist rng,
     irdgen k epsilon spikes = Ok d /\
     forall w, 0 <= fst (d w) < Z.max 1 k) /\
  (~ Forall (fun s => 0 <= s < k) spikes ->
   @irdgen FO rng SR k epsilon spikes = Err Undefined).
Proof.
  assert (Hlen : forall s, 0 <= s < k <->
            0 <= s < Z.of_nat (List.length (repeat epsilon (Z.to_nat k)))).
  { intros s. rewrite repeat_length. lia. }
  split.
  - intros Hall.
    destruct (set_spikes_in_range spikes (repeat epsilon (Z.to_nat k))
                (f64_sub 1%Q epsilon)) as [ws Hs].
    { eapply Forall_impl; [|exact Hall]. intros s. apply Hlen. }
    exists (discrete_distribution (normalise_vec ws)).
    assert (Hi : @irdgen FO rng SR k epsilon spikes =
                 Ok (discrete_distribution (normalise_vec ws)))
      by (unfold irdgen; now rewrite Hs).
    split; [exact Hi|]. now apply (irdgen_range k epsilon spikes).
  - intros Hn. unfold irdgen. rewrite set_spikes_out_of_range; [reflexivity|].
    intros Hall. apply Hn. eapply Forall_impl; [|exact Hall].
    intros s. apply Hlen.
Qed.

(** X8.  [parse_ird] accepts only the presets [b] to [f] and specs whose
    first colon-separated field is [fgen]: any other string ends the
    program with a fatal error, and so does an [fgen] spec that does not
    have exactly four colon-separated fields (such as the comma form
    [fgen:k,epsilon,spikes]). *)
Theorem parse_ird_rejects (s : string) :
  (~ In s ["b"; "c"; "d"; "e"; "f"]%string ->
   hd_error (split s ":") <> Some "fgen"%string ->
   @parse_ird FO rng SR s = Err FatalError) /\
  (hd_error (split s ":") = Some "fgen"%string ->
   List.length (split s ":") <> 4%nat ->
   @parse_ird FO rng SR s = Err FatalError).
Proof.
  split.
  - intros Hpre Hhd. unfold parse_ird.
    repeat match goal with
    | |- context [String.eqb s ?p] =>
      destruct (String.eqb_spec s p) as [->|_];
        [exfalso; apply Hpre; cbn; tauto|]
    end.
    destruct (split s ":") as [|a0 rest] eqn:Es.
    { now apply split_nonempty in Es. }
    cbn [vec_at Z.ltb Z.compare Z.to_nat nth_error bind].
    destruct (String.eqb_spec a0 "fgen") as [->|_]; [|reflexivity].
    now cbn in Hhd.
  - intros Hhd Hlen. unfold parse_ird.
    repeat match goal with
    | |- context [String.eqb s ?p] =>
      destruct (String.eqb_spec s p) as [->|_];
        [vm_compute in Hhd; discriminate Hhd|]
    end.
    destruct (split s ":") as [|a0 rest] eqn:Es; [discriminate|].
    cbn in Hhd. injection Hhd as ->.
    cbn [vec_at Z.ltb Z.compare Z.to_nat nth_error bind].
    rewrite String.eqb_refl. unfold parse_fgen.
    cbn [vec_at Z.ltb Z.compare Z.to_nat nth_error bind].
    rewrite String.eqb_refl. cbn [ensure bind].
    apply Nat.eqb_neq in Hlen. rewrite Hlen. reflexivity.
Qed.

Lemma sizes_sampler_in (ws : list f64) (sizes : list Z) :
  sizes <> [] -> List.length ws = List.length sizes ->
  forall w : rng, In (fst (sizes_sampler ws sizes w)) sizes.
Proof.
  intros Hne Hlen w. unfold sizes_sampler.
  pose proof (discrete_range ws w) as Hr.
  destruct (discrete_distribution ws w) as [idx w1]. cbn [fst] in *.
  apply nth_In. destruct sizes; [congruence|].
  rewrite Hlen in Hr. cbn [List.length] in *. lia.
Qed.

(** X9.  [parse_request_sizes] accepts a spec only when it has exactly two
    colon-separated parts with as many weights as sizes; the sampler it
    returns only ever draws one of the listed sizes. *)
Theorem request_sizes_drawn_from_list (arg : string) :
  (forall d : @dist rng, parse_request_sizes arg = Ok d ->
     exists p0 p1 sizes,
       split arg ":" = [p0; p1] /\
       mapM (fun x => of_option (stoi x) Exception) (split p1 ",")
         = Ok sizes /\
       List.length (split p0 ",") = List.length sizes /\
       forall w, In (fst (d w)) sizes) /\
  (List.length (split arg ":") <> 2%nat ->
   @parse_request_sizes FO rng SR arg = Err FatalError) /\
  (forall p0 p1, split arg ":" = [p0; p1] ->
     List.length (split p0 ",") <> List.length (split p1 ",") ->
     @parse_request_sizes FO rng SR arg = Err FatalError).
Proof.
  split; [|split].
  - intros d Hp. unfold parse_request_sizes in Hp.
    destruct (split arg ":") as [|p0 [|p1 [|p2 rest]]] eqn:Es;
      cbn [List.length Nat.eqb ensure bind] in Hp; try discriminate Hp.
    change (vec_at [p0; p1] 0) with (Ok p0) in Hp.
    change (vec_at [p0; p1] 1) with (Ok p1) in Hp. cbn [bind] in Hp.
    destruct (Nat.eqb (List.length (split p0 ","))
                      (List.length (split p1 ","))) eqn:El;
      cbn [ensure bind] in Hp; [|discriminate Hp].
    apply Nat.eqb_eq in El.
    destruct (mapM _ (split p0 ",")) as [ws|] eqn:Ew;
      cbn [bind] in Hp; [|discriminate Hp].
    destruct (mapM _ (split p1 ",")) as [sizes|] eqn:Esz;
      cbn [bind] in Hp; [|discriminate Hp].
    injection Hp as <-.
    apply mapM_length in Ew. pose proof (mapM_length _ _ _ Esz) as Hsz.
    exists p0, p1, sizes. split; [reflexivity|]. split; [exact Esz|].
    split; [congruence|]. apply sizes_sampler_in.
    + pose proof (split_nonempty p1 ",") as Hne.
      destruct sizes; [|discriminate].
      destruct (split p1 ","); [congruence|discriminate].
    + rewrite normalise_vec_length. congruence.
  - intros Hlen. unfold parse_request_sizes.
    apply Nat.eqb_neq in Hlen. now rewrite Hlen.
  - intros p0 p1 Es Hlen. unfold parse_request_sizes. rewrite Es.
    cbn [List.length Nat.eqb ensure bind].
    change (vec_at [p0; p1] 0) with (Ok p0).
    change (vec_at [p0; p1] 1) with (Ok p1). cbn [bind].
    apply Nat.eqb_neq in Hlen. now rewrite Hlen.
Qed.

End ParserBehaviour.

Lemma irdgen_spikes_in_range_witness :
  @irdgen exact_ops tape tape_random 5 (1 # 100)%Q [0; 5] = Err Undefined.
Proof.
  apply (proj2 (@irdgen_spikes_in_range exact_ops tape tape_random
                  5 (1 # 100)%Q [0; 5])).
  intros H. inversion H as [|? ? _ H1]; subst.
  inversion H1 as [|? ? H5 _]; subst. lia.
Defined.

Lemma parse_ird_rejects_witness :
  @parse_ird exact_ops tape tape_random "zzz" = Err FatalError /\
  @parse_ird exact_ops tape tape_random "fgen:20,0.005,0,3" = Err FatalError.
Proof.
  split.
  - apply (proj1 (@parse_ird_rejects exact_ops tape tape_random "zzz")).
    + cbn. intros [H|[H|[H|[H|[H|[]]]]]]; discriminate H.
    + vm_compute. discriminate.
  - apply (proj2 (@parse_ird_rejects exact_ops tape tape_random
                    "fgen:20,0.005,0,3")).
    + reflexivity.
    + vm_compute. discriminate.
Defined.

Lemma request_sizes_drawn_from_list_witness :
  @parse_request_sizes exact_ops tape tape_random "1,1,1:1,3" =
  Err FatalError.
Proof.
  apply (proj2 (proj2 (@request_sizes_drawn_from_list exact_ops tape
                         tape_random "1,1,1:1,3")) "1,1,1" "1,3")%string.
  - reflexivity.
  - vm_compute. discriminate.
Defined.

(** ** The schedule: what is emitted and how virtual times move *)

Lemma in_addresses (addrs a : Z) :
  In a (addresses addrs) <-> 0 <= a < addrs.
Proof.
  unfold addresses. rewrite in_map_iff. split.
  - intros [k [<- Hk]]. apply in_seq in Hk. lia.
  - intros Ha. exists (Z.to_nat a). split; [lia|]. apply in_seq. lia.
Qed.

Section Schedule.
Context {FO : FloatOps} {rng : Type} {SR : StdRandom rng}.
Context {SH : StdHeap tadr tadr_cmp}.
Context {SHG : StdHeap group_tadr group_tadr_cmp}.

Lemma heappop_group_least (h : list group_tadr) (m : group_tadr)
      (h' : list group_tadr) :
  is_heap group_tadr_cmp h -> heappop h = Ok (m, h') ->
  forall e, In e h -> gt_ird m <= gt_ird e.
Proof.
  intros Hh Hpop e He.
  destruct (heappop_inv _ _ _ Hh Hpop) as [_ [_ Hhd]].
  destruct h as [|x v]; [discriminate|]. cbn in Hhd. injection Hhd as ->.
  exact (heap_front_least gt_ird m v Hh e He).
Qed.

(** What a successful schedule step of the blended loop does. *)
Lemma gen_step_schedule_spec addrs p_irm (d_ird d_irm : @dist rng) st st' :
  is_heap tadr_cmp (g_irds st) ->
  f64_ltb (fst (uniform_real_distribution (g_rng st))) p_irm = false ->
  gen_step addrs p_irm d_ird d_irm st = Ok st' ->
  exists m rest ird_sample,
    heappop (g_irds st) = Ok (m, rest) /\
    0 <= ird_sample < addrs /\
    Permutation (g_irds st) (m :: rest) /\
    Permutation (g_irds st') (mk_tadr (ird m + ird_sample) (addr m) :: rest) /\
    g_trace st' = g_trace st ++ [addr m].
Proof.
  intros Hh Hu Hs. rewrite gen_step_schedule in Hs by exact Hu.
  cbv zeta in Hs.
  set (s := fst (d_ird (snd (uniform_real_distribution (g_rng st))))) in *.
  destruct ((0 <=? s) && (s <? addrs)) eqn:Er; [|discriminate].
  apply andb_true_iff in Er. destruct Er as [E1 E2].
  apply Z.leb_le in E1. apply Z.ltb_lt in E2.
  destruct (heappop (g_irds st)) as [[m rest]|] eqn:Hpop; [|discriminate].
  cbn [bind] in Hs. injection Hs as <-. cbn [g_irds g_trace].
  destruct (heappop_inv _ _ _ Hh Hpop) as [Hperm [Hh' _]].
  exists m, rest, s. repeat split; try assumption.
  unfold heappush. symmetry. now apply heappush_entry_perm.
Qed.

(** X10.  A schedule step emits the address of an entry whose virtual time
    is least among all entries of the heap, in the blended loop and in the
    grouped loop alike. *)
Theorem schedule_step_emits_least :
  (forall addrs p_irm (d_ird d_irm : @dist rng) (st st' : @gen_state rng),
     is_heap tadr_cmp (g_irds st) ->
     f64_ltb (fst (uniform_real_distribution (g_rng st))) p_irm = false ->
     gen_step addrs p_irm d_ird d_irm st = Ok st' ->
     exists m, In m (g_irds st) /\
               (forall e, In e (g_irds st) -> ird m <= ird e) /\
               g_trace st' = g_trace st ++ [addr m]) /\
  (forall (irds : list (@dist rng)) pop (st st' : @kd_state rng),
     is_heap group_tadr_cmp (k_heap st) ->
     kd_step irds pop st = Ok st' ->
     exists m, In m (k_heap st) /\
               (forall e, In e (k_heap st) -> gt_ird m <= gt_ird e) /\
               k_trace st' = k_trace st ++ [gt_addr m]).
Proof.
  split.
  - intros addrs p_irm d_ird d_irm st st' Hh Hu Hs.
    destruct (gen_step_schedule_spec _ _ _ _ _ _ Hh Hu Hs)
      as [m [rest [s [Hpop [_ [Hperm [_ Htr]]]]]]].
    exists m. split; [|split; [|exact Htr]].
    + eapply Permutation_in; [symmetry; exact Hperm|now left].
    + now apply (heappop_least _ _ _ Hh Hpop).
  - intros irds pop st st' Hh Hs.
    destruct (kd_step_spec irds pop st st' Hh Hs)
      as [m [rest [d [p [Hpop [Hperm [_ [_ [_ H]]]]]]]]].
    cbv zeta in H. destruct H as [Htr _].
    exists m. split; [|split; [|exact Htr]].
    + eapply Permutation_in; [symmetry; exact Hperm|now left].
    + now apply (heappop_group_least _ _ _ Hh Hpop).
Qed.

Lemma gen_step_lower_bound addrs p_irm (d_ird d_irm : @dist rng) st st' x :
  is_heap tadr_cmp (g_irds st) ->
  Forall (fun e => x <= ird e) (g_irds st) ->
  gen_step addrs p_irm d_ird d_irm st = Ok st' ->
  is_heap tadr_cmp (g_irds st') /\ Forall (fun e => x <= ird e) (g_irds st').
Proof.
  intros Hh Hx Hs.
  destruct (f64_ltb (fst (uniform_real_distribution (g_rng st))) p_irm) eqn:Hu.
  - rewrite gen_step_irm in Hs by exact Hu. cbv zeta in Hs.
    destruct (_ <? addrs); [|discriminate]. injection Hs as <-. now split.
  - rewrite gen_step_schedule in Hs by exact Hu. cbv zeta in Hs.
    set (s := fst (d_ird (snd (uniform_real_distribution (g_rng st))))) in *.
    destruct ((0 <=? s) && (s <? addrs)) eqn:Er; [|discriminate].
    apply andb_true_iff in Er. destruct Er as [E1 _]. apply Z.leb_le in E1.
    destruct (heappop (g_irds st)) as [[m rest]|] eqn:Hpop; [|discriminate].
    cbn [bind] in Hs. injection Hs as <-. cbn [g_irds].
    destruct (heappop_inv _ _ _ Hh Hpop) as [Hperm [Hh' _]].
    split; [now apply heappush_entry_is_heap|].
    unfold heappush.
    eapply Permutation_Forall; [apply heappush_entry_perm; exact Hh'|].
    pose proof (Permutation_Forall Hperm Hx) as Hx'.
    inversion Hx' as [|? ? Hm Hrest]; subst.
    constructor; [cbn [ird]; lia|exact Hrest].
Qed.

(** X11.  In the blended loop virtual times never fall: whatever bounds all
    virtual times of the heap from below after setup still bounds them from
    below after any number of steps. *)
Theorem blended_virtual_times_never_fall
        (addrs : Z) (p_irm : f64) (d_ird d_irm : @dist rng) (w : rng)
        (x : Z) (k : nat) (st : @gen_state rng) :
  Forall (fun e => x <= ird e) (g_irds (gen_setup addrs d_ird w)) ->
  gen_loop k addrs p_irm d_ird d_irm (gen_setup addrs d_ird w) = Ok st ->
  Forall (fun e => x <= ird e) (g_irds st).
Proof.
  assert (Hgen : forall n st0 st1,
            is_heap tadr_cmp (g_irds st0) ->
            Forall (fun e => x <= ird e) (g_irds st0) ->
            gen_loop n addrs p_irm d_ird d_irm st0 = Ok st1 ->
            Forall (fun e => x <= ird e) (g_irds st1)).
  { induction n as [|n IH]; intros st0 st1 Hh Hx Hl; cbn [gen_loop] in Hl.
    - now injection Hl as <-.
    - destruct (gen_step addrs p_irm d_ird d_irm st0) as [st2|] eqn:Hs;
        [|discriminate].
      cbn [bind] in Hl.
      destruct (gen_step_lower_bound _ _ _ _ _ _ _ Hh Hx Hs) as [Hh2 Hx2].
      eapply IH; eauto. }
  intros Hx Hl. eapply Hgen; [|exact Hx|exact Hl].
  apply (proj1 (proj1 (gen_setup_inv addrs d_ird w))).
Qed.

Lemma clamped_ird_nonneg (pop_g : f64) (raw : Z) : 0 <= clamped_ird pop_g raw.
Proof.
  unfold clamped_ird. destruct (llround_i64 (scaled_of pop_g raw) <? 0) eqn:E.
  - lia.
  - now apply Z.ltb_ge in E.
Qed.

(** X12.  In grouped mode no virtual time is ever negative: setup clamps
    every initial value at zero and every step adds a clamped increment. *)
Theorem grouped_virtual_times_nonnegative
        (addrs : Z) (irds : list (@dist rng)) (pop : list f64) (w : rng)
        (st0 : @kd_state rng) (k : nat) (st : @kd_state rng) :
  kd_setup addrs irds pop w = Ok st0 ->
  kd_loop k irds pop st0 = Ok st ->
  Forall (fun e => 0 <= gt_ird e) (k_heap st).
Proof.
  intros Hs Hl.
  destruct (kd_setup_inv _ _ _ _ _ Hs) as [[Hh0 _] [_ Hinit]].
  assert (H0 : Forall (fun e => 0 <= gt_ird e) (k_heap st0)).
  { eapply Forall_impl; [|exact Hinit].
    intros e [_ [d [p [w' [_ [_ He]]]]]]. rewrite He.
    apply clamped_ird_nonneg. }
  clear Hs Hinit. revert st0 Hl Hh0 H0.
  induction k as [|k IH]; intros st0 Hl Hh0 H0; cbn [kd_loop] in Hl.
  - now injection Hl as <-.
  - destruct (kd_step irds pop st0) as [st1|] eqn:Hs; [|discriminate].
    cbn [bind] in Hl.
    destruct (kd_step_spec irds pop st0 st1 Hh0 Hs)
      as [m [rest [d [p [_ [Hperm [_ [_ [_ H]]]]]]]]].
    cbv zeta in H. destruct H as [_ [_ [Hh1 Hperm1]]].
    apply (IH st1 Hl Hh1).
    eapply Permutation_Forall; [symmetry; exact Hperm1|].
    pose proof (Permutation_Forall Hperm H0) as H0'.
    inversion H0' as [|? ? Hm Hrest]; subst.
    constructor; [|exact Hrest]. cbn [gt_ird].
    pose proof (clamped_ird_nonneg p (to_int (fst (d (k_rng st0))))). lia.
Qed.

End Schedule.

Lemma schedule_step_emits_least_witness :
  exists m,
    In m (g_irds (gen_setup 4 (const_dist 1) ([] : tape))) /\
    forall e, In e (g_irds (gen_setup 4 (const_dist 1) ([] : tape))) ->
              ird m <= ird e.
Proof.
  assert (Hs : {st' | gen_step 4 0%Q (const_dist 1) (const_dist 0)
                        (gen_setup 4 (const_dist 1) ([] : tape)) = Ok st'})
    by (eexists; vm_compute; reflexivity).
  destruct Hs as [st' Hs].
  destruct (proj1 (@schedule_step_emits_least exact_ops tape tape_random
                     tadr_heap group_tadr_heap)
              4 0%Q (const_dist 1) (const_dist 0)
              (gen_setup 4 (const_dist 1) []) st'
              (proj1 (proj1 (gen_setup_inv 4 (const_dist 1) [])))
              eq_refl Hs) as [m [H1 [H2 _]]].
  exists m. split; [exact H1|exact H2].
Defined.

Lemma blended_virtual_times_never_fall_witness :
  exists st,
    gen_loop 2 4 0%Q (const_dist 1) (const_dist 0)
             (gen_setup 4 (const_dist 1) ([] : tape)) = Ok st /\
    Forall (fun e => 1 <= ird e) (g_irds st).
Proof.
  assert (Hl : {st | gen_loop 2 4 0%Q (const_dist 1) (const_dist 0)
                       (gen_setup 4 (const_dist 1) ([] : tape)) = Ok st})
    by (eexists; vm_compute; reflexivity).
  destruct Hl as [st Hl]. exists st. split; [exact Hl|].
  apply (@blended_virtual_times_never_fall tape tape_random tadr_heap
           4 0%Q (const_dist 1) (const_dist 0) [] 1 2%nat st);
    [|exact Hl].
  repeat constructor; cbn; lia.
Defined.

Lemma grouped_virtual_times_nonnegative_witness :
  exists st,
    kd_loop 2 [const_dist 3; const_dist (-5)] [(1 # 2)%Q; 0%Q]
            (mk_kd_state [mk_group_tadr 0 3 1; mk_group_tadr 0 2 1;
                          mk_group_tadr 6 1 0; mk_group_tadr 6 0 0]
                         [] ([] : tape)) = Ok st /\
    Forall (fun e => 0 <= gt_ird e) (k_heap st).
Proof.
  assert (Hl : {st | kd_loop 2 [const_dist 3; const_dist (-5)]
                       [(1 # 2)%Q; 0%Q]
                       (mk_kd_state [mk_group_tadr 0 3 1; mk_group_tadr 0 2 1;
                                     mk_group_tadr 6 1 0; mk_group_tadr 6 0 0]
                                    [] ([] : tape)) = Ok st})
    by (eexists; vm_compute; reflexivity).
  destruct Hl as [st Hl]. exists st. split; [exact Hl|].
  apply (grouped_virtual_times_nonnegative (rng := tape)
           4 [const_dist 3; const_dist (-5)] [(1 # 2)%Q; 0%Q] []
           (mk_kd_state [mk_group_tadr 0 3 1; mk_group_tadr 0 2 1;
                         mk_group_tadr 6 1 0; mk_group_tadr 6 0 0] [] [])
           2%nat st); [vm_compute; reflexivity|exact Hl].
Defined.

(** ** The traces *)

Section Traces.
Context {FO : FloatOps} {rng : Type} {SR : StdRandom rng}.
Context {SH : StdHeap tadr tadr_cmp}.
Context {SHG : StdHeap group_tadr group_tadr_cmp}.

Lemma gen_loop_trace (n : nat) :
  forall addrs p_irm (d_ird d_irm : @dist rng) st st',
    irds_inv addrs (g_irds st) ->
    gen_loop n addrs p_irm d_ird d_irm st = Ok st' ->
    exists new,
      g_trace st' = g_trace st ++ new /\ List.length new = n /\
      Forall (fun a => a < addrs) new /\
      ((forall w, 0 <= fst (d_irm w)) -> Forall (fun a => 0 <= a) new).
Proof.
  induction n as [|n IH]; intros addrs p_irm d_ird d_irm st st' Hinv Hl;
    cbn [gen_loop] in Hl.
  - injection Hl as <-. exists []. rewrite app_nil_r. auto.
  - destruct (gen_step addrs p_irm d_ird d_irm st) as [st1|] eqn:Hs;
      [|discriminate].
    cbn [bind] in Hl.
    pose proof (gen_step_inv _ _ _ _ _ _ Hinv Hs) as Hinv1.
    destruct (IH _ _ _ _ _ _ Hinv1 Hl) as [new [Htr [Hlen [Hlt Hge]]]].
    assert (Hone : exists a, g_trace st1 = g_trace st ++ [a] /\ a < addrs /\
                     ((forall w, 0 <= fst (d_irm w)) -> 0 <= a)).
    { destruct (f64_ltb (fst (uniform_real_distribution (g_rng st))) p_irm)
        eqn:Hu.
      - rewrite gen_step_irm in Hs by exact Hu. cbv zeta in Hs.
        destruct (_ <? addrs) eqn:E; [|discriminate].
        injection Hs as <-. apply Z.ltb_lt in E. cbn [g_trace]. eauto.
      - destruct (gen_step_schedule_spec _ _ _ _ _ _ (proj1 Hinv) Hu Hs)
          as [m [rest [s [_ [_ [Hperm [_ Htr1]]]]]]].
        exists (addr m). split; [exact Htr1|].
        assert (Hin : In (addr m) (addresses addrs)).
        { eapply Permutation_in; [exact (proj2 Hinv)|].
          apply in_map. eapply Permutation_in; [symmetry; exact Hperm|].
          now left. }
        apply in_addresses in Hin. split; [lia|]. intros _. lia. }
    destruct Hone as [a [Ha [Halt Hage]]].
    exists (a :: new). rewrite Htr, Ha, <- app_assoc. cbn [app List.length].
    split; [reflexivity|]. split; [now rewrite Hlen|].
    split; [now constructor|]. intros Hnn. constructor; auto.
Qed.

(** X13.  A trace returned by [gen_addresses] or [td_gen] has exactly
    [length] entries (none for a negative [length]) and every entry is below
    [addrs]; the entries are addresses of [0, addrs) as soon as the IRM
    sampler never returns a negative value. *)
Theorem blended_trace_length_and_range
        (addrs length : Z) (p_irm : f64) (d_ird d_irm : @dist rng) (w : rng)
        (trace : list Z) (w' : rng) :
  gen_addresses addrs length p_irm d_ird d_irm w = Ok (trace, w') ->
  td_gen addrs length p_irm d_ird d_irm w = Ok (trace, w') /\
  List.length trace = Z.to_nat length /\
  Forall (fun a => a < addrs) trace /\
  ((forall w0, 0 <= fst (d_irm w0)) -> Forall (fun a => 0 <= a < addrs) trace).
Proof.
  intros Hg. split; [now rewrite td_gen_eq|].
  unfold gen_addresses in Hg.
  destruct (gen_loop _ _ _ _ _ _) as [st|] eqn:Hl; [|discriminate].
  cbn [bind] in Hg. injection Hg as <- <-.
  destruct (gen_setup_inv addrs d_ird w) as [Hinv Htr0].
  destruct (gen_loop_trace _ _ _ _ _ _ _ Hinv Hl)
    as [new [Htr [Hlen [Hlt Hge]]]].
  rewrite Htr0 in Htr. cbn [app] in Htr. rewrite Htr.
  split; [exact Hlen|]. split; [exact Hlt|].
  intros Hnn. specialize (Hge Hnn).
  rewrite Forall_forall in *. intros a Ha.
  specialize (Hlt a Ha). specialize (Hge a Ha). lia.
Qed.

Lemma kd_loop_trace (n : nat) :
  forall addrs (irds : list (@dist rng)) pop (st st' : @kd_state rng),
    kd_inv addrs irds pop (k_heap st) ->
    kd_loop n irds pop st = Ok st' ->
    exists new,
      k_trace st' = k_trace st ++ new /\ List.length new = n /\
      Forall (fun a => 0 <= a < addrs) new.
Proof.
  induction n as [|n IH]; intros addrs irds pop st st' Hinv Hl;
    cbn [kd_loop] in Hl.
  - injection Hl as <-. exists []. rewrite app_nil_r. auto.
  - destruct (kd_step irds pop st) as [st1|] eqn:Hs; [|discriminate].
    cbn [bind] in Hl.
    pose proof (kd_step_inv _ _ _ _ _ Hinv Hs) as Hinv1.
    destruct (IH _ _ _ _ _ Hinv1 Hl) as [new [Htr [Hlen Hr]]].
    destruct (kd_step_spec irds pop st st1 (proj1 Hinv) Hs)
      as [m [rest [d [p [_ [Hperm [_ [_ [_ H]]]]]]]]].
    cbv zeta in H. destruct H as [Htr1 _].
    assert (Hin : In (gt_addr m) (addresses addrs)).
    { eapply Permutation_in; [exact (proj1 (proj2 Hinv))|].
      apply in_map. eapply Permutation_in; [symmetry; exact Hperm|].
      now left. }
    apply in_addresses in Hin.
    exists (gt_addr m :: new). rewrite Htr, Htr1, <- app_assoc.
    cbn [app List.length]. split; [reflexivity|].
    split; [now rewrite Hlen|]. now constructor.
Qed.

(** X14.  A trace returned by [kd_gen] has exactly [length] entries and
    every entry is an address of [0, addrs). *)
Theorem grouped_trace_length_and_range
        (addrs length : Z) (irds : list (@dist rng)) (pop : list f64)
        (w : rng) (trace : list Z) (w' : rng) :
  kd_gen addrs length irds pop w = Ok (trace, w') ->
  0 <= length /\
  List.length trace = Z.to_nat length /\
  Forall (fun a => 0 <= a < addrs) trace.
Proof.
  intros Hg. unfold kd_gen in Hg.
  destruct (kd_setup addrs irds pop w) as [st0|] eqn:Hs; [|discriminate].
  cbn [bind] in Hg.
  destruct (0 <=? length) eqn:El; [|discriminate]. cbn [ensure bind] in Hg.
  destruct (kd_loop _ _ _ _) as [st|] eqn:Hl; [|discriminate].
  cbn [bind] in Hg. injection Hg as <- <-.
  destruct (kd_setup_inv _ _ _ _ _ Hs) as [Hinv [Htr0 _]].
  destruct (kd_loop_trace _ _ _ _ _ _ Hinv Hl) as [new [Htr [Hlen Hr]]].
  rewrite Htr0 in Htr. cbn [app] in Htr. rewrite Htr.
  apply Z.leb_le in El. auto.
Qed.

(** X15.  With [p_irm = 0.0] no step takes the IRM branch, so the IRM
    sampler is never consulted: two runs that differ only in the IRM
    sampler give the same result, and every emitted address lies in
    [0, addrs). *)
Theorem pure_ird_ignores_irm
        (addrs length : Z) (d_ird d_irm d_irm' : @dist rng) (w : rng) :
  gen_addresses addrs length 0%Q d_ird d_irm w =
    gen_addresses addrs length 0%Q d_ird d_irm' w /\
  td_gen addrs length 0%Q d_ird d_irm w =
    td_gen addrs length 0%Q d_ird d_irm' w /\
  (forall trace w',
     gen_addresses addrs length 0%Q d_ird d_irm w = Ok (trace, w') ->
     Forall (fun a => 0 <= a < addrs) trace).
Proof.
  assert (Hzero : forall w0,
            f64_ltb (fst (uniform_real_distribution w0)) 0%Q = false).
  { intros w0. destruct (uniform_real_range w0) as [Hge _].
    unfold f64_ltb. apply negb_false_iff. now apply Qle_bool_iff. }
  assert (Hloop : forall (d1 d2 : @dist rng) n st,
            gen_loop n addrs 0%Q d_ird d1 st =
            gen_loop n addrs 0%Q d_ird d2 st).
  { intros d1 d2. induction n as [|n IH]; intros st; cbn [gen_loop];
      [reflexivity|].
    rewrite !(gen_step_schedule addrs 0%Q d_ird) by apply Hzero. cbv zeta.
    destruct (_ && _); [|reflexivity].
    destruct (heappop (g_irds st)) as [[m rest]|]; cbn [bind]; auto. }
  assert (Hgen : gen_addresses addrs length 0%Q d_ird d_irm w =
                 gen_addresses addrs length 0%Q d_ird d_irm' w)
    by (unfold gen_addresses; now rewrite (Hloop d_irm d_irm')).
  split; [exact Hgen|]. split; [now rewrite !td_gen_eq|].
  intros trace w' Hg. unfold gen_addresses in Hg.
  rewrite (Hloop d_irm (const_dist 0)) in Hg.
  destruct (gen_loop _ _ _ _ _ _) as [st|] eqn:Hl; [|discriminate].
  cbn [bind] in Hg. injection Hg as <- <-.
  destruct (gen_setup_inv addrs d_ird w) as [Hinv Htr0].
  destruct (gen_loop_trace _ _ _ _ _ _ _ Hinv Hl)
    as [new [Htr [_ [Hlt Hge]]]].
  rewrite Htr0 in Htr. cbn [app] in Htr. rewrite Htr.
  specialize (Hge ltac:(intros; cbn; lia)).
  rewrite Forall_forall in *. intros a Ha.
  specialize (Hlt a Ha). specialize (Hge a Ha). lia.
Qed.

End Traces.

Lemma blended_trace_length_and_range_witness :
  exists trace,
    List.length trace = 3%nat /\ Forall (fun a => a < 4) trace.
Proof.
  assert (Hg : {r | gen_addresses 4 3 (1 # 2)%Q (const_dist 1) (const_dist 2)
                      ([] : tape) = Ok r})
    by (eexists; vm_compute; reflexivity).
  destruct Hg as [[trace w'] Hg].
  destruct (@blended_trace_length_and_range tape tape_random tadr_heap
              4 3 (1 # 2)%Q (const_dist 1) (const_dist 2) [] trace w' Hg)
    as [_ [Hlen [Hlt _]]].
  exists trace. split; [exact Hlen|exact Hlt].
Defined.

Lemma grouped_trace_length_and_range_witness :
  exists trace,
    List.length trace = 5%nat /\ Forall (fun a => 0 <= a < 4) trace.
Proof.
  assert (Hg : {r | kd_gen 4 5 [const_dist 3; const_dist 5]
                      [(1 # 2)%Q; 0%Q] ([] : tape) = Ok r})
    by (eexists; vm_compute; reflexivity).
  destruct Hg as [[trace w'] Hg].
  destruct (grouped_trace_length_and_range (rng := tape)
              4 5 [const_dist 3; const_dist 5] [(1 # 2)%Q; 0%Q] []
              trace w' Hg) as [_ [Hlen Hr]].
  exists trace. split; [exact Hlen|exact Hr].
Defined.

(** ** Post-processing and the main programs *)

Section Output.
Context {FO : FloatOps} {rng : Type} {SR : StdRandom rng}.
Context {SH : StdHeap tadr tadr_cmp}.
Context {SHG : StdHeap group_tadr group_tadr_cmp}.

Lemma augment_offsets (addrs : list Z) :
  forall frac_read (sizedist : @dist rng) blocksize w,
    map ol_offset (fst (augment addrs frac_read sizedist blocksize w)) =
    map (fun a => a * blocksize) addrs.
Proof.
  induction addrs as [|a addrs IH]; intros frac_read sizedist blocksize w;
    cbn [augment]; [reflexivity|].
  destruct (uniform_real_distribution w) as [u w1].
  destruct (sizedist w1) as [size w2].
  specialize (IH frac_read sizedist blocksize w2).
  destruct (augment addrs frac_read sizedist blocksize w2) as [lines w3].
  cbn [fst map ol_offset] in *. now rewrite IH.
Qed.

Lemma augment_offsets_in (addrs : list Z) (P : Z -> Prop) :
  forall frac_read (sizedist : @dist rng) blocksize w,
    Forall P addrs ->
    Forall (fun l => exists a, P a /\ ol_offset l = a * blocksize)
           (fst (augment addrs frac_read sizedist blocksize w)).
Proof.
  intros frac_read sizedist blocksize w HP.
  pose proof (augment_offsets addrs frac_read sizedist blocksize w) as Ho.
  revert Ho HP.
  generalize (fst (augment addrs frac_read sizedist blocksize w)).
  induction addrs as [|a addrs IH]; intros [|l lines] Ho HP;
    try discriminate; [constructor|].
  cbn [map] in Ho. injection Ho as H1 H2.
  inversion HP; subst. constructor; [eauto|now apply IH].
Qed.

(** X16.  Post-processing writes one line per address, in the order of the
    trace: the byte offset of the i-th line is the i-th address times the
    block size, its size is a draw of the size sampler times the block
    size, and its operation is 0 or 1. *)
Theorem augment_keeps_order_and_offsets
        (addrs : list Z) (frac_read : f64) (sizedist : @dist rng)
        (blocksize : Z) (w : rng) :
  let lines := fst (augment addrs frac_read sizedist blocksize w) in
  List.length lines = List.length addrs /\
  map ol_offset lines = map (fun a => a * blocksize) addrs /\
  Forall (fun l => (ol_op l = 0 \/ ol_op l = 1) /\
                   exists w0, ol_size l = fst (sizedist w0) * blocksize)
         lines.
Proof.
  cbv zeta.
  pose proof (augment_offsets addrs frac_read sizedist blocksize w) as Ho.
  split; [|split; [exact Ho|]].
  - apply (f_equal (@List.length Z)) in Ho. now rewrite !length_map in Ho.
  - clear Ho. revert w.
    induction addrs as [|a addrs IH]; intros w; cbn [augment];
      [constructor|].
    destruct (uniform_real_distribution w) as [u w1].
    destruct (sizedist w1) as [size w2] eqn:Es.
    specialize (IH w2).
    destruct (augment addrs frac_read sizedist blocksize w2) as [lines w3].
    cbn [fst] in *. constructor; [|exact IH]. cbn [ol_op ol_size]. split.
    + destruct (f64_ltb u frac_read); auto.
    + exists w1. now rewrite Es.
Qed.

(** X17.  With a read fraction of 1 or more (the default is 1) every output
    line is a read (operation 0); with a read fraction of 0 or less every
    line is a write (operation 1). *)
Theorem augment_read_fraction_extremes
        (addrs : list Z) (frac_read : f64) (sizedist : @dist rng)
        (blocksize : Z) (w : rng) :
  ((1 <= frac_read)%Q ->
   Forall (fun l => ol_op l = 0)
          (fst (augment addrs frac_read sizedist blocksize w))) /\
  ((frac_read <= 0)%Q ->
   Forall (fun l => ol_op l = 1)
          (fst (augment addrs frac_read sizedist blocksize w))).
Proof.
  split; intros Hf; revert w;
    (induction addrs as [|a addrs IH]; intros w; cbn [augment];
     [constructor|]);
    pose proof (uniform_real_range w) as [Hge Hlt];
    destruct (uniform_real_distribution w) as [u w1]; cbn [fst] in *;
    destruct (sizedist w1) as [size w2]; specialize (IH w2);
    destruct (augment addrs frac_read sizedist blocksize w2) as [lines w3];
    cbn [fst] in *; (constructor; [|exact IH]); cbn [ol_op].
  - rewrite f64_ltb_lt; [reflexivity|lra].
  - destruct (f64_ltb u frac_read) eqn:E; [|reflexivity].
    apply f64_ltb_true in E. lra.
Qed.


(** X19.  [main] of kd-tracegen.cc stops with a fatal error before any
    sampler is built when the number of semicolon-separated IRD specs
    differs from [groups]; since [split] returns at least one spec this
    includes [groups = 0], so [kd_gen] is never entered without a group. *)
Theorem kd_main_checks_group_count
        (num_addrs length groups : Z) (frac_read : f64) (blocksize : Z)
        (ird_arg irm_arg sizedist_arg : string) (w : rng) :
  (Z.of_nat (List.length (split ird_arg ";")) <> to_size_t groups ->
   kd_main num_addrs length groups frac_read blocksize
           ird_arg irm_arg sizedist_arg w = Err FatalError) /\
  (groups = 0 ->
   kd_main num_addrs length groups frac_read blocksize
           ird_arg irm_arg sizedist_arg w = Err FatalError).
Proof.
  assert (H : Z.of_nat (List.length (split ird_arg ";")) <> to_size_t groups ->
              kd_main num_addrs length groups frac_read blocksize
                      ird_arg irm_arg sizedist_arg w = Err FatalError).
  { intros Hne. unfold kd_main. apply Z.eqb_neq in Hne.
    now rewrite Hne. }
  split; [exact H|]. intros ->. apply H.
  pose proof (split_nonempty ird_arg ";") as Hs.
  destruct (split ird_arg ";"); [congruence|].
  cbn [List.length]. unfold to_size_t. rewrite Z.mod_0_l by lia. lia.
Qed.

(** X20.  When the options are consistent ([0 < groups <= addresses], as
    many IRD specs as groups, a non-negative length) and the three specs
    parse, [main] of kd-tracegen.cc runs to completion: it writes exactly
    [length] lines, each at the byte offset of an address of
    [0, addresses). *)
Theorem kd_main_completes
        (num_addrs length groups : Z) (frac_read : f64) (blocksize : Z)
        (ird_arg irm_arg sizedist_arg : string) (w : rng)
        (irds : list (@dist rng)) (irm_dist sizedist : @dist rng) :
  0 < groups <= num_addrs -> groups <= 2 ^ 30 -> 0 <= length ->
  Z.of_nat (List.length (split ird_arg ";")) = groups ->
  mapM parse_ird (split ird_arg ";") = Ok irds ->
  parse_irm irm_arg num_addrs true = Ok irm_dist ->
  parse_request_sizes sizedist_arg = Ok sizedist ->
  exists lines,
    kd_main num_addrs length groups frac_read blocksize
            ird_arg irm_arg sizedist_arg w = Ok lines /\
    List.length lines = Z.to_nat length /\
    Forall (fun l => exists a, 0 <= a < num_addrs /\
                               ol_offset l = a * blocksize) lines.
Proof.
  intros Hg Hb Hlen Hcount Hirds Hirm Hsz. unfold kd_main.
  assert (Hsize : to_size_t groups = groups)
    by (unfold to_size_t; apply Z.mod_small; lia).
  rewrite Hsize, Hcount, Z.eqb_refl. cbn [ensure bind].
  rewrite Hirds, Hirm. cbn [bind].
  destruct (draw_pop_entries (Z.to_nat groups) irm_dist [] w (Forall_nil _))
    as [_ Hpl].
  destruct (draw_pop (Z.to_nat groups) irm_dist [] w) as [pop w1].
  cbn [fst List.length Nat.add] in Hpl.
  rewrite Hsz. cbn [bind].
  pose proof (mapM_length _ _ _ Hirds) as Hil.
  assert (Hgi : Z.of_nat (List.length irds) = groups) by lia.
  destruct (kd_setup_progress num_addrs irds pop w1
              ltac:(lia) ltac:(lia) ltac:(lia)) as [st0 Hs].
  destruct (kd_setup_inv _ _ _ _ _ Hs) as [Hinv [Htr0 _]].
  destruct (kd_loop_progress (Z.to_nat length) num_addrs irds pop st0
              ltac:(lia) Hinv) as [st [Hl _]].
  destruct (kd_loop_trace _ _ _ _ _ _ Hinv Hl) as [new [Htr [Hnl Hr]]].
  rewrite Htr0 in Htr. cbn [app] in Htr.
  unfold kd_gen. rewrite Hs. cbn [bind].
  replace (0 <=? length) with true by (symmetry; apply Z.leb_le; lia).
  cbn [ensure bind]. rewrite Hl. cbn [bind]. rewrite Htr.
  eexists. split; [reflexivity|]. split.
  - pose proof (augment_offsets new frac_read sizedist blocksize (k_rng st))
      as Ho.
    apply (f_equal (@List.length Z)) in Ho. rewrite !length_map in Ho.
    now rewrite Ho.
  - now apply augment_offsets_in.
Qed.

(** X21.  Whenever [main] of 2d-tracegen.cc completes, it has written
    exactly [length] lines (none for a negative [length]), each at the byte
    offset of an address below [addresses]. *)
Theorem td_main_output
        (num_addrs length : Z) (p_irm frac_read : f64) (blocksize : Z)
        (ird_arg irm_arg sizedist_arg : string) (w : rng)
        (lines : list out_line) :
  td_main num_addrs length p_irm frac_read blocksize
          ird_arg irm_arg sizedist_arg w = Ok lines ->
  List.length lines = Z.to_nat length /\
  Forall (fun l => exists a, a < num_addrs /\ ol_offset l = a * blocksize)
         lines.
Proof.
  intros Hm. unfold td_main in Hm.
  destruct (parse_ird ird_arg) as [ird|]; [|discriminate]. cbn [bind] in Hm.
  destruct (parse_irm irm_arg num_addrs false) as [irm|]; [|discriminate].
  cbn [bind] in Hm.
  destruct (parse_request_sizes sizedist_arg) as [sizedist|]; [|discriminate].
  cbn [bind] in Hm. rewrite td_gen_eq in Hm. unfold gen_addresses in Hm.
  destruct (gen_loop _ _ _ _ _ _) as [st|] eqn:Hl; [|discriminate].
  cbn [bind] in Hm. injection Hm as <-.
  destruct (gen_setup_inv num_addrs ird w) as [Hinv Htr0].
  destruct (gen_loop_trace _ _ _ _ _ _ _ Hinv Hl)
    as [new [Htr [Hnl [Hlt _]]]].
  rewrite Htr0 in Htr. cbn [app] in Htr. rewrite Htr. split.
  - pose proof (augment_offsets new frac_read sizedist blocksize (g_rng st))
      as Ho.
    apply (f_equal (@List.length Z)) in Ho. rewrite !length_map in Ho.
    now rewrite Ho.
  - now apply augment_offsets_in.
Qed.

End Output.

Lemma augment_read_fraction_extremes_witness :
  Forall (fun l => ol_op l = 0)
         (fst (augment [0; 3; 1] 1%Q (const_dist 2) 4096 ([500; 999] : tape))).
Proof.
  apply (proj1 (@augment_read_fraction_extremes tape tape_random
                  [0; 3; 1] 1%Q (const_dist 2) 4096 [500; 999])).
  apply Qle_refl.
Defined.


Lemma kd_main_checks_group_count_witness :
  kd_main 4 3 3 1%Q 4096 "d;b" "2,8" "1:1" ([] : tape) = Err FatalError.
Proof.
  apply (proj1 (@kd_main_checks_group_count exact_ops tape tape_random
                  group_tadr_heap 4 3 3 1%Q 4096 "d;b" "2,8" "1:1" [])).
  vm_compute. discriminate.
Defined.

Lemma kd_main_completes_witness :
  exists lines,
    kd_main 4 3 2 1%Q 4096 "d;b" "2,8" "1:1" ([] : tape) = Ok lines /\
    List.length lines = 3%nat.
Proof.
  assert (Hi : {irds | mapM (@parse_ird exact_ops tape tape_random)
                            (split "d;b" ";") = Ok irds})
    by (eexists; vm_compute; reflexivity).
  assert (Hm : {d | @parse_irm exact_ops tape tape_random "2,8" 4 true = Ok d})
    by (eexists; vm_compute; reflexivity).
  assert (Hz : {d | @parse_request_sizes exact_ops tape tape_random "1:1"
                    = Ok d})
    by (eexists; vm_compute; reflexivity).
  destruct Hi as [irds Hi]. destruct Hm as [irm Hm]. destruct Hz as [sd Hz].
  destruct (@kd_main_completes exact_ops tape tape_random group_tadr_heap
              4 3 2 1%Q 4096 "d;b" "2,8" "1:1" [] irds irm sd
              ltac:(lia) ltac:(lia) ltac:(lia) eq_refl Hi Hm Hz)
    as [lines [H1 [H2 _]]].
  exists lines. split; [exact H1|exact H2].
Defined.

Lemma td_main_output_witness :
  exists lines,
    td_main 4 3 (1 # 2)%Q 1%Q 4096 "d" "uniform:4" "1:1" ([] : tape)
      = Ok lines /\
    List.length lines = 3%nat.
Proof.
  assert (Hm : {lines | td_main 4 3 (1 # 2)%Q 1%Q 4096 "d" "uniform:4" "1:1"
                                ([] : tape) = Ok lines})
    by (eexists; vm_compute; reflexivity).
  destruct Hm as [lines Hm]. exists lines. split; [exact Hm|].
  exact (proj1 (@td_main_output exact_ops tape tape_random tadr_heap
                  4 3 (1 # 2)%Q 1%Q 4096 "d" "uniform:4" "1:1" [] lines Hm)).
Defined.

(** ** [parse_irm]: dispatch and address mode *)

Section IrmSpecs.
Context {FO : FloatOps} {rng : Type} {SR : StdRandom rng}.

(** X22.  A spec that contains a colon is read as [type:args]: it is
    rejected with a fatal error when it does not have exactly two
    colon-separated fields, when the type is none of [pareto], [zipf],
    [uniform], [normal], and when [pareto], [zipf] or [normal] do not get 3,
    2 and 2 comma-separated arguments.  [uniform] ignores what follows the
    colon, and the popularity flag: it always yields the uniform sampler
    over [0, max). *)
Theorem parse_irm_canonical_dispatch
        (dist_str : string) (max : Z) (pop_mode : bool) :
  index 0 ":" dist_str <> None ->
  (List.length (split dist_str ":") <> 2%nat ->
   @parse_irm FO rng SR dist_str max pop_mode = Err FatalError) /\
  (forall t a, split dist_str ":" = [t; a] ->
     (t = "uniform"%string ->
      @parse_irm FO rng SR dist_str max pop_mode = Ok (uniform_dist max)) /\
     (~ In t ["pareto"; "zipf"; "uniform"; "normal"]%string ->
      @parse_irm FO rng SR dist_str max pop_mode = Err FatalError) /\
     (t = "pareto"%string -> List.length (split a ",") <> 3%nat ->
      @parse_irm FO rng SR dist_str max pop_mode = Err FatalError) /\
     (t = "zipf"%string -> List.length (split a ",") <> 2%nat ->
      @parse_irm FO rng SR dist_str max pop_mode = Err FatalError) /\
     (t = "normal"%string -> List.length (split a ",") <> 2%nat ->
      @parse_irm FO rng SR dist_str max pop_mode = Err FatalError)).
Proof.
  intros Hcolon. unfold parse_irm.
  destruct (index 0 ":" dist_str) as [pos|]; [|congruence]. split.
  - intros Hlen. apply Nat.eqb_neq in Hlen. now rewrite Hlen.
  - intros t a Es. rewrite Es. cbn [List.length Nat.eqb ensure bind].
    change (vec_at [t; a] 0) with (Ok t).
    change (vec_at [t; a] 1) with (Ok a). cbn [bind].
    split; [intros ->; reflexivity|].
    split.
    { intros Hnot.
      repeat match goal with
      | |- context [String.eqb t ?p] =>
        destruct (String.eqb_spec t p) as [->|_];
          [exfalso; apply Hnot; cbn; tauto|]
      end.
      reflexivity. }
    split; [|split]; intros -> Hlen; apply Nat.eqb_neq in Hlen;
      cbn [String.eqb Ascii.eqb Bool.eqb andb]; now rewrite Hlen.
Qed.

Lemma boundaries_loop_shape (vals : list f64) :
  forall sum max boundaries,
    List.length (boundaries_loop vals sum max boundaries) =
      (List.length boundaries + List.length vals)%nat /\
    forall i, (i < List.length boundaries)%nat ->
      nth i (boundaries_loop vals sum max boundaries) 0 = nth i boundaries 0.
Proof.
  induction vals as [|v vals IH]; intros sum max boundaries;
    cbn [boundaries_loop List.length].
  - split; [lia|auto].
  - destruct (IH (f64_add sum v) max
                (boundaries ++ [f64_floor (f64_mul (f64_add sum v)
                                                   (inject_Z max))]))
      as [Hl Hn].
    rewrite length_app in Hl, Hn. cbn [List.length] in Hl, Hn.
    split; [lia|]. intros i Hi. rewrite Hn by lia. now rewrite app_nth1.
Qed.

(** X23.  A colon-free spec built in address mode yields a sampler over a
    boundary table with one more entry than there are weights, starting at
    0.  Every draw picks a bin [b] by the discrete distribution over the
    normalised weights, reads the boundaries [b] and [b + 1] inside the
    table, and, when the bin is not empty, returns an address between
    boundary [b] and boundary [b + 1] minus one. *)
Theorem address_mode_draws_inside_bin
        (dist_str : string) (max : Z) (raw : list f64) :
  index 0 ":" dist_str = None ->
  mapM (fun t => of_option (stod t) Exception) (split dist_str ",") = Ok raw ->
  let vals := normalise_vec raw in
  let boundaries := boundaries_loop vals 0%Q max [0] in
  exists d : @dist rng,
    parse_irm dist_str max false = Ok d /\
    List.length boundaries = S (List.length vals) /\
    nth 0 boundaries 0 = 0 /\
    forall w,
      let b := fst (discrete_distribution vals w) in
      let start := nth (Z.to_nat b) boundaries 0 in
      let end_ := nth (Z.to_nat (b + 1)) boundaries 0 - 1 in
      0 <= b /\ (Z.to_nat (b + 1) < List.length boundaries)%nat /\
      (start <= end_ -> start <= fst (d w) <= end_).
Proof.
  intros Hcolon Hraw vals boundaries.
  exists (address_sampler vals boundaries). split.
  { unfold parse_irm. rewrite Hcolon, Hraw. reflexivity. }
  destruct (boundaries_loop_shape vals 0%Q max [0]) as [Hl Hn].
  fold boundaries in Hl, Hn. cbn [List.length Nat.add] in Hl.
  split; [exact Hl|]. split; [apply (Hn 0%nat); cbn; lia|].
  intros w. cbv zeta.
  pose proof (discrete_range vals w) as Hr.
  assert (Hne : List.length vals <> 0%nat).
  { unfold vals. rewrite normalise_vec_length.
    rewrite (mapM_length _ _ _ Hraw).
    pose proof (split_nonempty dist_str ",") as Hs.
    destruct (split dist_str ","); [congruence|discriminate]. }
  unfold address_sampler.
  destruct (discrete_distribution vals w) as [b w1]. cbn [fst] in *.
  split; [lia|]. split; [lia|].
  intros Hbin. now apply uniform_int_range.
Qed.

End IrmSpecs.

Lemma parse_irm_canonical_dispatch_witness :
  @parse_irm exact_ops tape tape_random "uniform:whatever" 8 true =
  Ok (uniform_dist 8).
Proof.
  apply (proj2 (@parse_irm_canonical_dispatch exact_ops tape tape_random
                  "uniform:whatever" 8 true ltac:(discriminate))
               "uniform"%string "whatever"%string eq_refl).
  reflexivity.
Defined.

Lemma address_mode_draws_inside_bin_witness :
  exists d : @dist tape,
    parse_irm "2,8" 10 false = Ok d /\
    boundaries_loop (normalise_vec [(2 # 1)%Q; (8 # 1)%Q]) 0%Q 10 [0] =
      [0; 2; 10].
Proof.
  destruct (@address_mode_draws_inside_bin exact_ops tape tape_random
              "2,8" 10 [(2 # 1)%Q; (8 # 1)%Q] eq_refl eq_refl)
    as [d [Hd _]].
  exists d. split; [exact Hd|reflexivity].
Defined.

(** ** Accepted IRD specs and runs that cannot abort *)

Section AcceptedRuns.
Context {FO : FloatOps} {rng : Type} {SR : StdRandom rng}.
Context {SH : StdHeap tadr tadr_cmp}.

(** X24.  An [fgen] spec with four colon-separated fields
    [fgen:k:epsilon:spikes] whose numbers parse and whose spike indices lie
    in [0, k) is accepted: [parse_ird] returns the sampler of
    [irdgen k epsilon spikes], and every draw is a class index of
    [0, k). *)
Theorem parse_ird_accepts_fgen
        (s ks es ss : string) (k : Z) (epsilon : f64) (spikes : list Z) :
  split s ":" = ["fgen"; ks; es; ss]%string ->
  stoi ks = Some k -> stod es = Some epsilon ->
  mapM (fun x => of_option (stoi x) Exception) (split ss ",") = Ok spikes ->
  Forall (fun i => 0 <= i < k) spikes ->
  exists d : @dist rng,
    parse_ird s = Ok d /\
    irdgen k epsilon spikes = Ok d /\
    forall w, 0 <= fst (d w) < k.
Proof.
  intros Es Hk He Hsp Hin.
  destruct (set_spikes_in_range spikes (repeat epsilon (Z.to_nat k))
              (f64_sub 1%Q epsilon)) as [ws Hs].
  { eapply Forall_impl; [|exact Hin]. intros i. rewrite repeat_length. lia. }
  assert (Hi : @irdgen FO rng SR k epsilon spikes =
               Ok (discrete_distribution (normalise_vec ws)))
    by (unfold irdgen; now rewrite Hs).
  exists (discrete_distribution (normalise_vec ws)).
  split; [|split; [exact Hi|]].
  - unfold parse_ird.
    repeat match goal with
    | |- context [String.eqb s ?p] =>
      destruct (String.eqb_spec s p) as [->|_];
        [vm_compute in Es; discriminate Es|]
    end.
    rewrite Es.
    change (vec_at ["fgen"; ks; es; ss]%string 0) with (Ok "fgen"%string).
    cbn [bind]. rewrite String.eqb_refl. unfold parse_fgen.
    change (vec_at ["fgen"; ks; es; ss]%string 0) with (Ok "fgen"%string).
    change (vec_at ["fgen"; ks; es; ss]%string 1) with (Ok ks).
    change (vec_at ["fgen"; ks; es; ss]%string 2) with (Ok es).
    change (vec_at ["fgen"; ks; es; ss]%string 3) with (Ok ss).
    cbn [bind]. rewrite String.eqb_refl.
    cbn [List.length Nat.eqb ensure bind].
    rewrite Hk, He. cbn [of_option bind]. rewrite Hsp. cbn [bind].
    exact Hi.
  - intros w. pose proof (irdgen_range k epsilon spikes _ Hi w) as Hr.
    assert (Hne : spikes <> []).
    { pose proof (split_nonempty ss ",") as Hn.
      apply mapM_length in Hsp. destruct spikes; [|discriminate].
      destruct (split ss ","); [congruence|discriminate]. }
    destruct spikes as [|i spikes']; [congruence|].
    inversion Hin; subst. lia.
Qed.

(** X25.  A blended run cannot abort when the IRD sampler has no more
    classes than there are addresses and the IRM sampler is uniform over
    the footprint: [gen_addresses] and [td_gen] return a trace of exactly
    [length] entries. *)
Theorem blended_run_completes
        (addrs length k : Z) (epsilon p_irm : f64) (spikes : list Z)
        (d_ird : @dist rng) (w : rng) :
  0 < addrs -> k <= addrs ->
  irdgen k epsilon spikes = Ok d_ird ->
  exists trace w',
    gen_addresses addrs length p_irm d_ird (uniform_dist addrs) w
      = Ok (trace, w') /\
    td_gen addrs length p_irm d_ird (uniform_dist addrs) w
      = Ok (trace, w') /\
    List.length trace = Z.to_nat length.
Proof.
  intros Ha Hk Hi.
  assert (Hird : forall w0, 0 <= fst (d_ird w0) < addrs).
  { intros w0. pose proof (irdgen_range k epsilon spikes d_ird Hi w0). lia. }
  assert (Hirm : forall w0, fst (@uniform_dist rng SR addrs w0) < addrs).
  { intros w0. unfold uniform_dist.
    pose proof (uniform_int_range 0 (addrs - 1) w0 ltac:(lia)). lia. }
  destruct (gen_setup_inv addrs d_ird w) as [Hinv Htr0].
  destruct (gen_loop_progress (Z.to_nat length) addrs p_irm d_ird
              (uniform_dist addrs) (gen_setup addrs d_ird w)
              Ha Hird Hirm Hinv) as [st Hl].
  destruct (gen_loop_trace _ _ _ _ _ _ _ Hinv Hl) as [new [Htr [Hn _]]].
  rewrite Htr0 in Htr. cbn [app] in Htr.
  assert (Hg : gen_addresses addrs length p_irm d_ird (uniform_dist addrs) w
               = Ok (g_trace st, g_rng st))
    by (unfold gen_addresses; now rewrite Hl).
  exists (g_trace st), (g_rng st). split; [exact Hg|].
  split; [now rewrite td_gen_eq|]. now rewrite Htr.
Qed.

End AcceptedRuns.

Lemma parse_ird_accepts_fgen_witness :
  exists d : @dist tape,
    parse_ird "fgen:10:0.1:3,5" = Ok d /\ forall w, 0 <= fst (d w) < 10.
Proof.
  destruct (@parse_ird_accepts_fgen exact_ops tape tape_random
              "fgen:10:0.1:3,5" "10" "0.1" "3,5" 10 (1 # 10)%Q [3; 5]
              eq_refl eq_refl eq_refl eq_refl
              ltac:(repeat constructor; lia)) as [d [Hd [_ Hr]]].
  exists d. split; [exact Hd|exact Hr].
Defined.

Lemma blended_run_completes_witness :
  exists trace w',
    gen_addresses 8 6 (1 # 2)%Q (discrete_distribution
                                   (normalise_vec [(99 # 100)%Q; (1 # 100)%Q;
                                                   (1 # 100)%Q; (1 # 100)%Q;
                                                   (99 # 100)%Q]))
                  (uniform_dist 8) ([3; 700; 4; 1] : tape) = Ok (trace, w') /\
    List.length trace = 6%nat.
Proof.
  destruct (@blended_run_completes exact_ops tape tape_random tadr_heap
              8 6 5 (1 # 100)%Q (1 # 2)%Q [0; 4]
              (discrete_distribution
                 (normalise_vec [(99 # 100)%Q; (1 # 100)%Q; (1 # 100)%Q;
                                 (1 # 100)%Q; (99 # 100)%Q]))
              [3; 700; 4; 1] ltac:(lia) ltac:(lia) eq_refl)
    as [trace [w' [Hg [_ Hl]]]].
  exists trace, w'. split; [exact Hg|exact Hl].
Defined.

Lemma pure_ird_ignores_irm_witness :
  gen_addresses 4 3 0%Q (const_dist 1) (const_dist 2) ([] : tape) =
  gen_addresses 4 3 0%Q (const_dist 1) (const_dist 99) ([] : tape).
Proof.
  exact (proj1 (@pure_ird_ignores_irm tape tape_random tadr_heap
                  4 3 (const_dist 1) (const_dist 2) (const_dist 99) [])).
Defined.
